(** * jsonparser: a grammar compiler and a memoised PEG matcher

    Shallow embedding of [jsonparser.py]: the helper [split], the grammar
    compiler [grammar], the decorator [memo] and the matcher [parse] with
    its two local functions [parse_sequence] and [parse_atom].

    Python strings are byte strings ([string]); a dict is a [gmap]; a call
    that may raise returns an [outcome].  The two services the matcher
    takes from the Python library, [%]-formatting and [re.match], form the
    interface [Host]: the theorems on the matcher hold for every host, and
    a model of a fragment of the library ([PyRe]) instantiates it for the
    concrete runs. *)

From Stdlib Require Import Ascii String ZArith Lia.
From stdpp Require Import base option list gmap strings.

Local Open Scope string_scope.
Local Open Scope list_scope.

(** ** Outcomes of a call *)

(** The exceptions the modelled code can raise. *)
Inductive exn : Type :=
| UnpackError (expected got : nat)  (* ValueError of [lhs, rhs = pieces] *)
| EmptySeparator                    (* ValueError of [str.split('')] *)
| KeyError (key : string)           (* [grammar[' ']] on a dict without it *)
| TypeError (what : string)
| IndexError (what : string)        (* [m.group(1)]: no such group *)
| RegexError (what : string)        (* [re.error]: the pattern does not compile *)
| Unmodelled (what : string).       (* library behaviour outside the model *)

(** [Done v]: the call returns [v].  [Raise e]: it raises [e].  [Diverge]:
    the recursion budget of the model ran out. *)
Inductive outcome (A : Type) : Type :=
| Done (v : A)
| Raise (e : exn)
| Diverge.
Arguments Done {A} v.
Arguments Raise {A} e.
Arguments Diverge {A}.

Definition obind {A B} (o : outcome A) (k : A -> outcome B) : outcome B :=
  match o with
  | Done v => k v
  | Raise e => Raise e
  | Diverge => Diverge
  end.

Notation "x <-! o ; k" := (obind o (fun x => k))
  (at level 20, o at level 100, k at level 200, only parsing).
Notation "' p <-! o ; k" := (obind o (fun p => k))
  (at level 20, p pattern, o at level 100, k at level 200, only parsing).

Fixpoint omap {A B} (f : A -> outcome B) (l : list A) : outcome (list B) :=
  match l with
  | [] => Done []
  | x :: l' => y <-! f x; ys <-! omap f l'; Done (y :: ys)
  end.

Fixpoint ofold {A S} (f : S -> A -> outcome S) (s : S) (l : list A) : outcome S :=
  match l with
  | [] => Done s
  | x :: l' => s' <-! f s x; ofold f s' l'
  end.

(** ** Python's [str] methods used by the compiler *)

Module PyStr.

Definition tab : ascii := "009"%char.
Definition newline : ascii := "010"%char.
Definition space : ascii := " "%char.

(** [c.isspace()] for a byte: space, \t, \n, \v, \f, \r. *)
Definition isspace (c : ascii) : bool :=
  let n := nat_of_ascii c in
  (n =? 32)%nat || ((9 <=? n)%nat && (n <=? 13)%nat).

Definition is_empty (s : string) : bool :=
  match s with "" => true | _ => false end.

Fixpoint lstrip (s : string) : string :=
  match s with
  | "" => ""
  | String c s' => if isspace c then lstrip s' else s
  end.

Fixpoint rstrip (s : string) : string :=
  match s with
  | "" => ""
  | String c s' =>
      let r := rstrip s' in
      if isspace c && is_empty r then "" else String c r
  end.

(** [s.strip()] *)
Definition strip (s : string) : string := rstrip (lstrip s).

(** [s.replace(old, new)] for one-character [old] and [new]. *)
Fixpoint replace (old new : ascii) (s : string) : string :=
  match s with
  | "" => ""
  | String c s' =>
      String (if Ascii.eqb c old then new else c) (replace old new s')
  end.

(** [s[n:]] *)
Fixpoint drop (n : nat) (s : string) : string :=
  match n, s with
  | O, _ => s
  | S _, "" => ""
  | S n', String _ s' => drop n' s'
  end.

(** [s[:n]] *)
Fixpoint take (n : nat) (s : string) : string :=
  match n, s with
  | O, _ => ""
  | S _, "" => ""
  | S n', String c s' => String c (take n' s')
  end.

(** [s.startswith(p)] *)
Fixpoint startswith (p s : string) : bool :=
  match p, s with
  | "", _ => true
  | String _ _, "" => false
  | String a p', String b s' => Ascii.eqb a b && startswith p' s'
  end.

(** [sub in s] *)
Fixpoint contains (sub s : string) : bool :=
  startswith sub s ||
  match s with
  | "" => false
  | String _ s' => contains sub s'
  end.

(** The [maxsplit] argument: a negative number is no limit. *)
Definition split_budget (maxsplit : Z) : option nat :=
  if (maxsplit <? 0)%Z then None else Some (Z.to_nat maxsplit).

Definition may_split (budget : option nat) : bool :=
  match budget with Some O => false | _ => true end.

Definition spend (budget : option nat) : option nat :=
  match budget with Some n => Some (pred n) | None => None end.

(** The head of the piece list under construction gets one more
    character in front. *)
Definition push (c : ascii) (pieces : list string) : list string :=
  match pieces with
  | [] => [String c ""]
  | p :: ps => String c p :: ps
  end.

(** [s.split(sep, maxsplit)] for a non-empty [sep], scanning from the
    left: [skip] counts the characters of a separator occurrence still to
    pass over. *)
Fixpoint split_on (sep : string) (skip : nat) (budget : option nat)
    (s : string) : list string :=
  match s with
  | "" => [""]
  | String c s' =>
      match skip with
      | S k => split_on sep k budget s'
      | O =>
          if may_split budget && startswith sep s
          then "" :: split_on sep (pred (String.length sep)) (spend budget) s'
          else push c (split_on sep O budget s')
      end
  end.

(** [s.split(None, maxsplit)]: runs of whitespace separate the pieces and
    no piece is empty; once the budget is spent the rest of the text,
    from its first non-blank character, is the last piece. *)
Fixpoint split_blank (inword : bool) (budget : option nat)
    (s : string) : list string :=
  match s with
  | "" => if inword then [""] else []
  | String c s' =>
      if inword then
        if isspace c then "" :: split_blank false budget s'
        else push c (split_blank true budget s')
      else
        if isspace c then split_blank false budget s'
        else if may_split budget
             then push c (split_blank true (spend budget) s')
             else [s]
  end.

(** [s.split(sep, maxsplit)] *)
Definition str_split (s : string) (sep : option string) (maxsplit : Z)
    : outcome (list string) :=
  match sep with
  | None => Done (split_blank false (split_budget maxsplit) s)
  | Some "" => Raise EmptySeparator
  | Some sp => Done (split_on sp O (split_budget maxsplit) s)
  end.

End PyStr.

(** ** The compiler: [split] and [grammar] *)

(** [[t.strip() for t in text.strip().split(sep, maxsplit) if t]] *)
Definition split (text : string) (sep : option string) (maxsplit : Z)
    : outcome (list string) :=
  pieces <-! PyStr.str_split (PyStr.strip text) sep maxsplit;
  Done (map PyStr.strip (filter (fun t => t <> "") pieces)).

(** A value of the grammar dict: the whitespace pattern (a [str]) under the
    key [' '], a tuple of alternatives under a symbol. *)
Inductive entry : Type :=
| EWs (whitespace : string)
| ERules (alternatives : list (list string)).

Definition ws_key : string := " ".
Definition nl : string := String PyStr.newline "".

(** The body of the [for line in ...] loop of [grammar]. *)
Definition add_rule (G : gmap string entry) (line : string)
    : outcome (gmap string entry) :=
  pieces <-! split line (Some " => ") 1;
  match pieces with
  | [lhs; rhs] =>
      alternatives <-! split rhs (Some " | ") (-1);
      rules <-! omap (fun a => split a None (-1)) alternatives;
      Done (<[lhs := ERules rules]> G)
  | _ => Raise (UnpackError 2 (length pieces))
  end.

Definition grammar (description whitespace : string)
    : outcome (gmap string entry) :=
  let G := {[ ws_key := EWs whitespace ]} in
  let description := PyStr.replace PyStr.tab PyStr.space description in
  lines <-! split description (Some nl) (-1);
  ofold add_rule G lines.

(** ** Parse trees and results *)

(** The Python values a parse returns: [None], a [str], or a list of them. *)
#[warnings="-register-all"]
Inductive tree : Type :=
| TNone
| TStr (s : string)
| TList (children : list tree).

(** A [(tree, remainder)] pair; the remainder is [None] or a [str]. *)
Definition parse_result : Type := tree * option string.

Definition Fail : parse_result := (TNone, None).

(** ** What the matcher takes from the Python library *)

(** A match object, as far as the matcher looks at it: the texts of the
    numbered groups ([None] for a group that took no part in the match) and
    [m.end()]. *)
Record match_obj : Type := MatchObj {
  mo_groups : list (option string);
  mo_end : nat
}.

(** [m.group(i)] for [i >= 1] *)
Definition group (m : match_obj) (i : nat) : outcome (option string) :=
  match mo_groups m !! pred i with
  | Some g => Done g
  | None => Raise (IndexError "no such group")
  end.

Class Host : Type := {
  (** [fmt % arg] for a string [arg] *)
  format : string -> string -> outcome string;
  (** [re.match(pattern, text)]: [None] or a match object *)
  re_match : string -> string -> outcome (option match_obj)
}.

(** ** The decorator [memo] *)

(** The dict [cache] of [memo]; the keys are the argument tuples
    [(atom, text)]. *)
Abbreviation cache := (gmap (string * string) parse_result).

(** A computation that reads and updates the cache and may raise. *)
Definition M (A : Type) : Type := cache -> outcome A * cache.

Definition ret {A} (v : A) : M A := fun c => (Done v, c).
Definition lift {A} (o : outcome A) : M A := fun c => (o, c).

Definition bind {A B} (m : M A) (k : A -> M B) : M B :=
  fun c =>
    match m c with
    | (Done v, c') => k v c'
    | (Raise e, c') => (Raise e, c')
    | (Diverge, c') => (Diverge, c')
    end.

Notation "x <~ m ; k" := (bind m (fun x => k))
  (at level 20, m at level 100, k at level 200, only parsing).

(** [_f] of [memo]: [cache[args]] when the key is there, otherwise
    [cache[args] = result = f(atom, text)].  The arguments are strings, so the
    [TypeError] handler for unhashable arguments is never entered. *)
Definition memo (f : string -> string -> M parse_result)
    (atom text : string) : M parse_result :=
  fun c =>
    match c !! (atom, text) with
    | Some r => (Done r, c)
    | None =>
        match f atom text c with
        | (Done r, c') => (Done r, <[(atom, text) := r]> c')
        | other => other
        end
    end.

(** ** The matcher *)

Section Matcher.
Context `{Host}.

(** The grammar dict and the string [tokenizer] of [parse]. *)
Variable G : gmap string entry.
Variable tokenizer : string.

(** Iterating [grammar[atom]]: the alternatives of a rule; for the
    whitespace pattern, a [str], its one-character strings, each in turn
    iterated as a sequence of one atom. *)
Definition alternatives_of (e : entry) : list (list string) :=
  match e with
  | ERules alternatives => alternatives
  | EWs ws => map (fun ch => [String ch ""]) (list_ascii_of_string ws)
  end.

(** The terminal branch of [parse_atom]. *)
Definition match_terminal (atom text : string) : outcome parse_result :=
  pattern <-! format tokenizer atom;
  m <-! re_match pattern text;
  match m with
  | None => Done Fail
  | Some m =>
      g <-! group m 1;
      Done (match g with Some s => TStr s | None => TNone end,
            Some (PyStr.drop (mo_end m) text))
  end.

(** [[atom] + tree] *)
Definition cons_atom (atom : string) (t : tree) : outcome tree :=
  match t with
  | TList children => Done (TList (TStr atom :: children))
  | _ => Raise (TypeError "can only concatenate list to list")
  end.

(** The loop of [parse_sequence], from the list [result] built so far;
    [parse_atom] is the function it calls on each atom. *)
Fixpoint sequence_loop (parse_atom : string -> string -> M parse_result)
    (sequence : list string) (result : list tree) (text : string)
    : M parse_result :=
  match sequence with
  | [] => ret (TList result, Some text)
  | atom :: sequence' =>
      r <~ parse_atom atom text;
      match r with
      | (_, None) => ret Fail
      | (t, Some text') =>
          sequence_loop parse_atom sequence' (result ++ [t]) text'
      end
  end.

Definition parse_sequence (parse_atom : string -> string -> M parse_result)
    (sequence : list string) (text : string) : M parse_result :=
  sequence_loop parse_atom sequence [] text.

(** The loop over the alternatives in the non-terminal branch of
    [parse_atom]. *)
Fixpoint alternatives_loop (parse_atom : string -> string -> M parse_result)
    (atom : string) (alternatives : list (list string)) (text : string)
    : M parse_result :=
  match alternatives with
  | [] => ret Fail
  | alternative :: rest =>
      r <~ parse_sequence parse_atom alternative text;
      match r with
      | (t, Some rem) => t' <~ lift (cons_atom atom t); ret (t', Some rem)
      | (_, None) => alternatives_loop parse_atom atom rest text
      end
  end.

(** The body of [parse_atom], under the decorator; its recursive calls go
    to [self], the decorated function. *)
Definition atom_body (self : string -> string -> M parse_result)
    (atom text : string) : M parse_result :=
  match G !! atom with
  | Some e => alternatives_loop self atom (alternatives_of e) text
  | None => lift (match_terminal atom text)
  end.

(** [parse_atom], decorated with [memo]; [fuel] bounds the depth of the
    recursion. *)
Fixpoint parse_atom (fuel : nat) : string -> string -> M parse_result :=
  match fuel with
  | O => fun _ _ => lift Diverge
  | S fuel' => memo (atom_body (parse_atom fuel'))
  end.

(** [parse_atom] with the decorator taken off. *)
Fixpoint parse_atom_nomemo (fuel : nat) : string -> string -> M parse_result :=
  match fuel with
  | O => fun _ _ => lift Diverge
  | S fuel' => atom_body (parse_atom_nomemo fuel')
  end.

End Matcher.

(** [grammar[' '] + '(%s)'] *)
Definition tokenizer_of (G : gmap string entry) : outcome string :=
  match G !! ws_key with
  | None => Raise (KeyError ws_key)
  | Some (EWs ws) => Done (ws +:+ "(%s)")
  | Some (ERules _) =>
      Raise (TypeError "can only concatenate tuple to tuple")
  end.

(** [parse(start_symbol, text, grammar)]; every call starts from an empty
    cache, the decorator being applied inside [parse]. *)
Definition parse `{Host} (fuel : nat) (start_symbol text : string)
    (grammar : gmap string entry) : outcome parse_result :=
  tokenizer <-! tokenizer_of grammar;
  fst (parse_atom grammar tokenizer fuel start_symbol text ∅).

(** [parse] with [memo] taken off [parse_atom]. *)
Definition parse_nomemo `{Host} (fuel : nat) (start_symbol text : string)
    (grammar : gmap string entry) : outcome parse_result :=
  tokenizer <-! tokenizer_of grammar;
  fst (parse_atom_nomemo grammar tokenizer fuel start_symbol text ∅).

(** ** A model of the library calls: [%] on strings and [re.match]

    The fragment of the regular-expression language that the grammars of
    this repository use: literals, [.], the classes [\s \d \w] and their
    complements, sets [[...]] with ranges and negation, groups, [|], and the
    greedy repeats [* + ? {n}].  A pattern outside the fragment has the
    outcome [Raise (Unmodelled _)]; a pattern that [re] rejects has
    [Raise (RegexError _)]. *)

Module PyRe.

(** [fmt % arg]: the conversions [%s] and [%%]. *)
Fixpoint format_go (fmt : string) (arg : option string) : outcome string :=
  match fmt with
  | "" =>
      match arg with
      | None => Done ""
      | Some _ => Raise (TypeError "not all arguments converted")
      end
  | String c rest =>
      if Ascii.eqb c "%" then
        match rest with
        | String d rest' =>
            if Ascii.eqb d "%" then
              s <-! format_go rest' arg; Done (String "%" s)
            else if Ascii.eqb d "s" then
              match arg with
              | Some a => s <-! format_go rest' None; Done (a +:+ s)
              | None => Raise (TypeError "not enough arguments for format string")
              end
            else Raise (Unmodelled "conversion specifier")
        | "" => Raise (Unmodelled "incomplete format")
        end
      else s <-! format_go rest arg; Done (String c s)
  end.

Definition py_format (fmt arg : string) : outcome string :=
  format_go fmt (Some arg).

(** Regular expressions; a set of characters is a list of code ranges,
    taken complemented when [neg] is set. *)
Inductive regex : Type :=
| Eps
| Chr (neg : bool) (ranges : list (nat * nat))
| Seq (r1 r2 : regex)
| Alt (r1 r2 : regex)
| Star (r : regex)
| Grp (i : nat) (r : regex).

Definition code (c : ascii) : nat := nat_of_ascii c.
Definition lit (c : ascii) : regex := Chr false [(code c, code c)].

Definition in_ranges (ranges : list (nat * nat)) (n : nat) : bool :=
  existsb (fun '(lo, hi) => (lo <=? n)%nat && (n <=? hi)%nat) ranges.

Definition in_set (neg : bool) (ranges : list (nat * nat)) (c : ascii) : bool :=
  xorb neg (in_ranges ranges (code c)).

Definition digits : list (nat * nat) := [(48, 57)].
Definition spaces : list (nat * nat) := [(9, 13); (32, 32)].
Definition words : list (nat * nat) := [(48, 57); (65, 90); (95, 95); (97, 122)].

Definition is_digit (c : ascii) : bool := in_ranges digits (code c).
Definition is_alpha (c : ascii) : bool :=
  in_ranges [(65, 90); (97, 122)] (code c).

Fixpoint nullable (r : regex) : bool :=
  match r with
  | Eps => true
  | Chr _ _ => false
  | Seq a b => nullable a && nullable b
  | Alt a b => nullable a || nullable b
  | Star _ => true
  | Grp _ a => nullable a
  end.

Fixpoint size (r : regex) : nat :=
  match r with
  | Eps | Chr _ _ => 1
  | Seq a b | Alt a b => S (size a + size b)
  | Star a | Grp _ a => S (size a)
  end.

Fixpoint repeat_seq (n : nat) (r : regex) : regex :=
  match n with
  | O => Eps
  | S n' => Seq r (repeat_seq n' r)
  end.

(** The character after a backslash: a class, or one character. *)
Definition escape (in_class : bool) (c : ascii) : outcome (bool * list (nat * nat)) :=
  let one n := Done (false, [(n, n)]) in
  if Ascii.eqb c "s" then Done (false, spaces)
  else if Ascii.eqb c "d" then Done (false, digits)
  else if Ascii.eqb c "w" then Done (false, words)
  else if Ascii.eqb c "S" then Done (true, spaces)
  else if Ascii.eqb c "D" then Done (true, digits)
  else if Ascii.eqb c "W" then Done (true, words)
  else if Ascii.eqb c "n" then one 10%nat
  else if Ascii.eqb c "t" then one 9%nat
  else if Ascii.eqb c "r" then one 13%nat
  else if Ascii.eqb c "f" then one 12%nat
  else if Ascii.eqb c "v" then one 11%nat
  else if Ascii.eqb c "a" then one 7%nat
  else if Ascii.eqb c "b" && in_class then one 8%nat
  else if is_digit c || is_alpha c then Raise (Unmodelled "escape")
  else one (code c).

(** Decimal digits at the front of [s]. *)
Fixpoint read_digits (s : string) (acc : option nat) : option nat * string :=
  match s with
  | String c s' =>
      if is_digit c
      then read_digits s' (Some (10 * default 0%nat acc + (code c - 48))%nat)
      else (acc, s)
  | "" => (acc, s)
  end.

(** What follows a [{]: a repeat [{n}], another well-formed repeat
    ([{n,m}] and the like, not modelled), or nothing of the kind, in
    which case [re] takes the brace as a literal. *)
Inductive brace : Type :=
| BraceExact (n : nat) (rest : string)
| BraceOther
| BraceLiteral.

Definition read_brace (s : string) : brace :=
  match s with
  | String c _ =>
      if Ascii.eqb c "}" then BraceLiteral
      else
        match read_digits s None with
        | (lo, String d s1) =>
            if Ascii.eqb d "}" then
              match lo with
              | Some n => BraceExact n s1
              | None => BraceLiteral
              end
            else if Ascii.eqb d "," then
              match read_digits s1 None with
              | (_, String e _) =>
                  if Ascii.eqb e "}" then BraceOther else BraceLiteral
              | _ => BraceLiteral
              end
            else BraceLiteral
        | _ => BraceLiteral
        end
  | "" => BraceLiteral
  end.

Definition is_repeat_char (c : ascii) : bool :=
  Ascii.eqb c "*" || Ascii.eqb c "+" || Ascii.eqb c "?".

(** A second repeat, or the [?] of a lazy one, right after a repeat. *)
Definition no_second_repeat (s : string) : outcome unit :=
  match s with
  | String c s' =>
      if is_repeat_char c then Raise (Unmodelled "repeat after a repeat")
      else if Ascii.eqb c "{" then
        match read_brace s' with
        | BraceLiteral => Done tt
        | _ => Raise (Unmodelled "repeat after a repeat")
        end
      else Done tt
  | "" => Done tt
  end.

Definition repeatable (r : regex) : outcome unit :=
  if nullable r then Raise (Unmodelled "repeat of a pattern matching the empty string")
  else Done tt.

(** The repeat, if any, after the item [r]. *)
Definition quantify (r : regex) (s : string) : outcome (regex * string) :=
  match s with
  | String c s' =>
      if Ascii.eqb c "*" then
        _ <-! repeatable r; _ <-! no_second_repeat s'; Done (Star r, s')
      else if Ascii.eqb c "+" then
        _ <-! repeatable r; _ <-! no_second_repeat s'; Done (Seq r (Star r), s')
      else if Ascii.eqb c "?" then
        _ <-! no_second_repeat s'; Done (Alt r Eps, s')
      else if Ascii.eqb c "{" then
        match read_brace s' with
        | BraceExact n s'' =>
            _ <-! no_second_repeat s''; Done (repeat_seq n r, s'')
        | BraceOther => Raise (Unmodelled "repeat with a range")
        | BraceLiteral => Done (r, s)
        end
      else Done (r, s)
  | "" => Done (r, s)
  end.

(** One member of a set: a character or an escape. *)
Definition set_member (s : string) : outcome (bool * list (nat * nat) * string) :=
  match s with
  | "" => Raise (RegexError "unexpected end of regular expression")
  | String c s' =>
      if Ascii.eqb c "\" then
        match s' with
        | "" => Raise (RegexError "bogus escape (end of line)")
        | String d s'' => e <-! escape true d; Done (e, s'')
        end
      else Done ((false, [(code c, code c)]), s')
  end.

(** The members of a set up to the closing bracket; [first] is set on the
    first member, where a closing bracket stands for itself. *)
Fixpoint set_members (fuel : nat) (first : bool) (s : string)
    : outcome (list (nat * nat) * string) :=
  match fuel with
  | O => Diverge
  | S fuel' =>
      match s with
      | "" => Raise (RegexError "unexpected end of regular expression")
      | String c s' =>
          if Ascii.eqb c "]" && negb first then Done ([], s')
          else
            '(m, s1) <-! set_member s;
            let '(neg, rs) := m in
            if neg : bool then Raise (Unmodelled "complemented class in a set")
            else
              match s1 with
              | String d (String e s2) =>
                  if Ascii.eqb d "-" && negb (Ascii.eqb e "]") then
                    '(m2, s3) <-! set_member (String e s2);
                    match rs, m2 with
                    | [(lo, _)], (false, [(hi, _)]) =>
                        if (hi <? lo)%nat then Raise (RegexError "bad character range")
                        else
                          '(more, s4) <-! set_members fuel' false s3;
                          Done ((lo, hi) :: more, s4)
                    | _, _ => Raise (Unmodelled "class as the end of a range")
                    end
                  else
                    '(more, s4) <-! set_members fuel' false s1;
                    Done (rs ++ more, s4)
              | _ =>
                  '(more, s4) <-! set_members fuel' false s1;
                  Done (rs ++ more, s4)
              end
      end
  end.

(** The pattern compiler: [p_alt] reads alternatives separated by [|],
    [p_seq] a sequence of items, [p_item] one item with its repeat;
    [n] counts the groups opened so far. *)
Fixpoint p_alt (fuel : nat) (s : string) (n : nat)
    : outcome (regex * string * nat) :=
  match fuel with
  | O => Diverge
  | S fuel' =>
      '(r1, s1, n1) <-! p_seq fuel' s n;
      match s1 with
      | String c s2 =>
          if Ascii.eqb c "|" then
            '(r2, s3, n2) <-! p_alt fuel' s2 n1; Done (Alt r1 r2, s3, n2)
          else Done (r1, s1, n1)
      | "" => Done (r1, s1, n1)
      end
  end
with p_seq (fuel : nat) (s : string) (n : nat)
    : outcome (regex * string * nat) :=
  match fuel with
  | O => Diverge
  | S fuel' =>
      match s with
      | "" => Done (Eps, s, n)
      | String c _ =>
          if Ascii.eqb c "|" || Ascii.eqb c ")" then Done (Eps, s, n)
          else
            '(r1, s1, n1) <-! p_item fuel' s n;
            '(r2, s2, n2) <-! p_seq fuel' s1 n1;
            Done (match r2 with Eps => r1 | _ => Seq r1 r2 end, s2, n2)
      end
  end
with p_item (fuel : nat) (s : string) (n : nat)
    : outcome (regex * string * nat) :=
  match fuel with
  | O => Diverge
  | S fuel' =>
      match s with
      | "" => Raise (RegexError "unexpected end of regular expression")
      | String c s' =>
          if Ascii.eqb c "(" then
            match s' with
            | String d _ =>
                if Ascii.eqb d "?" then Raise (Unmodelled "group extension")
                else
                  '(r, s1, n1) <-! p_alt fuel' s' (S n);
                  match s1 with
                  | String e s2 =>
                      if Ascii.eqb e ")" then
                        '(q, s3) <-! quantify (Grp (S n) r) s2; Done (q, s3, n1)
                      else Raise (RegexError "unbalanced parenthesis")
                  | "" => Raise (RegexError "unbalanced parenthesis")
                  end
            | "" => Raise (RegexError "unbalanced parenthesis")
            end
          else if Ascii.eqb c "[" then
            let '(neg, s1) :=
              match s' with
              | String d s'' => if Ascii.eqb d "^" then (true, s'') else (false, s')
              | "" => (false, s')
              end in
            '(rs, s2) <-! set_members (S (String.length s1)) true s1;
            '(q, s3) <-! quantify (Chr neg rs) s2; Done (q, s3, n)
          else if Ascii.eqb c "\" then
            match s' with
            | "" => Raise (RegexError "bogus escape (end of line)")
            | String d s1 =>
                '(neg, rs) <-! escape false d;
                '(q, s3) <-! quantify (Chr neg rs) s1; Done (q, s3, n)
            end
          else if Ascii.eqb c "." then
            '(q, s3) <-! quantify (Chr true [(10, 10)%nat]) s'; Done (q, s3, n)
          else if is_repeat_char c then Raise (RegexError "nothing to repeat")
          else if Ascii.eqb c "^" || Ascii.eqb c "$" then
            Raise (Unmodelled "anchor")
          else if Ascii.eqb c "{" then
            match read_brace s' with
            | BraceLiteral => '(q, s3) <-! quantify (lit c) s'; Done (q, s3, n)
            | _ => Raise (RegexError "nothing to repeat")
            end
          else '(q, s3) <-! quantify (lit c) s'; Done (q, s3, n)
      end
  end.

(** [sre_compile.compile(pattern)]: the expression and its number of
    groups. *)
Definition compile (pattern : string) : outcome (regex * nat) :=
  '(r, rest, n) <-! p_alt (4 * String.length pattern + 8) pattern 0;
  match rest with
  | "" => Done (r, n)
  | _ => Raise (RegexError "unbalanced parenthesis")
  end.

(** The backtracking matcher. *)
Inductive found : Type :=
| Found (rest : string) (groups : list (option string))
| NoMatch
| OutOfFuel.

Fixpoint run (fuel : nat) (r : regex) (s : string)
    (groups : list (option string))
    (k : string -> list (option string) -> found) : found :=
  match fuel with
  | O => OutOfFuel
  | S fuel' =>
      match r with
      | Eps => k s groups
      | Chr neg ranges =>
          match s with
          | String c s' => if in_set neg ranges c then k s' groups else NoMatch
          | "" => NoMatch
          end
      | Seq a b =>
          run fuel' a s groups (fun s' groups' => run fuel' b s' groups' k)
      | Alt a b =>
          match run fuel' a s groups k with
          | NoMatch => run fuel' b s groups k
          | other => other
          end
      | Star a =>
          match run fuel' a s groups (fun s' groups' =>
                  if (String.length s' <? String.length s)%nat
                  then run fuel' (Star a) s' groups' k
                  else NoMatch) with
          | NoMatch => k s groups
          | other => other
          end
      | Grp i a =>
          run fuel' a s groups (fun s' groups' =>
            let taken := (String.length s - String.length s')%nat in
            k s' (<[pred i := Some (PyStr.take taken s)]> groups'))
      end
  end.

(** [re.match(pattern, text)] *)
Definition py_re_match (pattern text : string) : outcome (option match_obj) :=
  '(r, n) <-! compile pattern;
  let fuel := ((String.length text + 2) * (size r + 2))%nat in
  match run fuel r text (replicate n None) Found with
  | Found rest groups =>
      Done (Some (MatchObj groups (String.length text - String.length rest)))
  | NoMatch => Done None
  | OutOfFuel => Diverge
  end.

End PyRe.

#[export] Instance py_host : Host :=
  {| format := PyRe.py_format; re_match := PyRe.py_re_match |}.

(** ** Vocabulary of the properties *)

(** [rem] is what is left of [text] once a prefix is taken off. *)
Definition is_suffix (rem text : string) : Prop :=
  exists prefix, text = prefix +:+ rem.

(** A result is well formed for the text it was computed on: it is [Fail],
    or its remainder is a suffix of that text. *)
Definition result_ok (text : string) (r : parse_result) : Prop :=
  match r with
  | (t, None) => t = TNone
  | (_, Some rem) => is_suffix rem text
  end.

(** Every stored result is well formed for the text of its key. *)
Definition cache_wf (c : cache) : Prop :=
  forall atom text r, c !! (atom, text) = Some r -> result_ok text r.

(** The atoms of [sequence], matched in order from [text] and the cache [c],
    all succeed: they give the child trees [ts], one each, the remainder of
    each atom being the text of the next, and leave [rem] and the cache
    [c']. *)
Inductive seq_steps (parse_atom : string -> string -> M parse_result)
  : list string -> string -> cache -> list tree -> string -> cache -> Prop :=
| steps_nil text c :
    seq_steps parse_atom [] text c [] text c
| steps_cons atom sequence text c t text1 c1 ts rem c' :
    parse_atom atom text c = (Done (t, Some text1), c1) ->
    seq_steps parse_atom sequence text1 c1 ts rem c' ->
    seq_steps parse_atom (atom :: sequence) text c (t :: ts) rem c'.

(** The alternatives of the list, tried in order on [text] from the cache
    [c], all fail, and leave the cache [c']. *)
Inductive alts_fail (parse_atom : string -> string -> M parse_result)
    (text : string) : list (list string) -> cache -> cache -> Prop :=
| fail_nil c :
    alts_fail parse_atom text [] c c
| fail_cons alternative rest c t c1 c' :
    parse_sequence parse_atom alternative text c = (Done (t, None), c1) ->
    alts_fail parse_atom text rest c1 c' ->
    alts_fail parse_atom text (alternative :: rest) c c'.

(** The function [parse_atom] keeps the cache well formed and returns well
    formed results. *)
Definition pa_wf (parse_atom : string -> string -> M parse_result) : Prop :=
  forall atom text c o c',
    cache_wf c -> parse_atom atom text c = (o, c') ->
    cache_wf c' /\ forall r, o = Done r -> result_ok text r.

(** [pa'] returns or raises whatever [pa] does, with the same cache. *)
Definition le_pa (pa pa' : string -> string -> M parse_result) : Prop :=
  forall atom text c o c',
    pa atom text c = (o, c') -> o <> Diverge -> pa' atom text c = (o, c').

(** Every exception [pa] raises satisfies [P]. *)
Definition raises_only (P : exn -> Prop)
    (pa : string -> string -> M parse_result) : Prop :=
  forall atom text c e c', pa atom text c = (Raise e, c') -> P e.

(** [pa] neither reads nor writes the cache. *)
Definition cache_free (pa : string -> string -> M parse_result) : Prop :=
  forall atom text c c0, pa atom text c = (fst (pa atom text c0), c).

(** The value of the undecorated [parse_atom], which does not touch the
    cache. *)
Definition eval `{Host} (G : gmap string entry) (tokenizer : string)
    (fuel : nat) (atom text : string) : outcome parse_result :=
  fst (parse_atom_nomemo G tokenizer fuel atom text ∅).

(** The undecorated [parse_atom] returns or raises [o] on [(atom, text)]. *)
Definition returns `{Host} (G : gmap string entry) (tokenizer : string)
    (atom text : string) (o : outcome parse_result) : Prop :=
  o <> Diverge /\ exists fuel, eval G tokenizer fuel atom text = o.

(** Every stored result is the one the undecorated function returns. *)
Definition cache_sound `{Host} (G : gmap string entry) (tokenizer : string)
    (c : cache) : Prop :=
  forall atom text r,
    c !! (atom, text) = Some r -> returns G tokenizer atom text (Done r).

(** [pa] keeps the cache sound and agrees with the undecorated function. *)
Definition pa_sound `{Host} (G : gmap string entry) (tokenizer : string)
    (pa : string -> string -> M parse_result) : Prop :=
  forall atom text c o c',
    cache_sound G tokenizer c -> pa atom text c = (o, c') ->
    cache_sound G tokenizer c' /\
    (o <> Diverge -> returns G tokenizer atom text o).

(** [pa] returns or raises, from a sound cache, whatever the undecorated
    function does within the depth [fuel]. *)
Definition pa_complete `{Host} (G : gmap string entry) (tokenizer : string)
    (fuel : nat) (pa : string -> string -> M parse_result) : Prop :=
  forall atom text c o,
    cache_sound G tokenizer c -> eval G tokenizer fuel atom text = o ->
    o <> Diverge -> exists c', pa atom text c = (o, c').

(** The exceptions of the library calls of the terminal branch. *)
Definition from_terminal `{Host} (G : gmap string entry) (tokenizer : string)
    (e : exn) : Prop :=
  exists atom text,
    G !! atom = None /\ match_terminal tokenizer atom text = Raise e.

(** The value of the undecorated [parse_sequence]. *)
Definition eval_sequence `{Host} (G : gmap string entry) (tokenizer : string)
    (fuel : nat) (sequence : list string) (text : string)
    : outcome parse_result :=
  fst (parse_sequence (parse_atom_nomemo G tokenizer fuel) sequence text ∅).

(** Ordered choice: [r] is the result of the first of the alternatives that
    does not fail, its children put under [atom], the alternatives before
    it failing; or every alternative fails and [r] is [Fail]. *)
Definition first_success `{Host} (G : gmap string entry) (tokenizer : string)
    (fuel : nat) (atom : string) (alternatives : list (list string))
    (text : string) (r : parse_result) : Prop :=
  (exists pre alt post children rem,
      alternatives = pre ++ alt :: post
      /\ (forall a, a ∈ pre -> eval_sequence G tokenizer fuel a text = Done Fail)
      /\ eval_sequence G tokenizer fuel alt text
         = Done (TList children, Some rem)
      /\ r = (TList (TStr atom :: children), Some rem))
  \/ ((forall a,
         a ∈ alternatives -> eval_sequence G tokenizer fuel a text = Done Fail)
      /\ r = Fail).

(** The rule a line stands for: the line split once on [' => '] into the
    symbol and the right-hand side, the right-hand side split on [' | ']
    into alternatives, each alternative split on whitespace into atoms. *)
Definition rule_of (line : string) : outcome (string * list (list string)) :=
  pieces <-! split line (Some " => ") 1;
  match pieces with
  | [lhs; rhs] =>
      alternatives <-! split rhs (Some " | ") (-1);
      rules <-! omap (fun a => split a None (-1)) alternatives;
      Done (lhs, rules)
  | _ => Raise (UnpackError 2 (length pieces))
  end.

(** The lines of a description that [grammar] takes as rules. *)
Definition rule_lines (description : string) : outcome (list string) :=
  split (PyStr.replace PyStr.tab PyStr.space description) (Some nl) (-1).

(** The message of an exception, as CPython 2 words it. *)
Definition exn_message (e : exn) : string :=
  match e with
  | UnpackError _ 0 => "need more than 0 values to unpack"
  | UnpackError _ 1 => "need more than 1 value to unpack"
  | UnpackError _ _ => "too many values to unpack"
  | EmptySeparator => "empty separator"
  | KeyError key => key
  | TypeError what | IndexError what | RegexError what | Unmodelled what => what
  end.

(** [G[lhs] = rules] *)
Definition insert_rule (G : gmap string entry)
    (rule : string * list (list string)) : gmap string entry :=
  <[rule.1 := ERules rule.2]> G.

(** The rule [(lhs, alternatives)] is the last one for [lhs] in the list. *)
Definition last_rule (rules : list (string * list (list string)))
    (lhs : string) (alternatives : list (list string)) : Prop :=
  exists before after,
    rules = before ++ (lhs, alternatives) :: after /\ lhs ∉ map fst after.

(** ** The grammars of the examples *)

(** The double quote character. *)
Definition dq : string := String "034"%char "".

(** The text [s] between double quotes. *)
Definition quoted (s : string) : string := dq +:+ s +:+ dq.

(** The description [value => "a" | "b"]. *)
Definition ab_description : string :=
  "value => " +:+ dq +:+ "a" +:+ dq +:+ " | " +:+ dq +:+ "b" +:+ dq.

(** The grammar compiled from [ab_description] with the default whitespace
    pattern. *)
Definition ab_grammar : gmap string entry :=
  <[ "value" := ERules [ [dq +:+ "a" +:+ dq]; [dq +:+ "b" +:+ dq] ] ]>
    {[ ws_key := EWs "\s*" ]}.

(** A grammar with no rule: every atom is a terminal. *)
Definition bare_grammar : gmap string entry := {[ ws_key := EWs "\s*" ]}.

(** The grammar of [v => a] under the whitespace pattern [(\s)*], which has
    a group of its own. *)
Definition grouped_ws_grammar : gmap string entry :=
  <[ "v" := ERules [ ["a"] ] ]> {[ ws_key := EWs "(\s)*" ]}.

(** The grammar of [v => a] under the default whitespace pattern. *)
Definition plain_ws_grammar : gmap string entry :=
  <[ "v" := ERules [ ["a"] ] ]> {[ ws_key := EWs "\s*" ]}.

(** ** The JSON grammar of the source and its tests *)

(** The description of the JSON grammar. *)
Definition JSON_description : string :=
  nl
  +:+ "value => null | false | true | array | object | number | string" +:+ nl
  +:+ "string => " +:+ dq +:+ "(([^" +:+ dq +:+ "\\]|\\[" +:+ dq
       +:+ "\/bfnrt\\])|\\u[0-9A-Fa-f]{4})+" +:+ dq +:+ " | " +:+ dq +:+ dq
       +:+ nl
  +:+ "array => \[ elements \]" +:+ nl
  +:+ "elements => value , elements | value" +:+ nl
  +:+ "object => { members } | {}" +:+ nl
  +:+ "members => pair , members | pair" +:+ nl
  +:+ "pair => string : value" +:+ nl
  +:+ "number => int frac exp | int exp | int frac | int" +:+ nl
  +:+ "int => -[1-9][0-9]+ | -[0-9] | [1-9][0-9]+ | [0-9]" +:+ nl
  +:+ "frac => \.[0-9]+" +:+ nl
  +:+ "exp => [eE][+-]?[0-9]+" +:+ nl.

(** The assertions of [test]: the texts and the trees expected, each
    with the remainder ['']. *)
Definition test_cases : list (string * tree) :=
  [
    (quoted "",
     TList [TStr "value"; TList [TStr "string"; TStr (quoted "")]]);
    (quoted "hello",
     TList [TStr "value"; TList [TStr "string"; TStr (quoted "hello")]]);
    (quoted ("He\/o" +:+ nl),
     TList [TStr "value"; TList [TStr "string"; TStr (quoted ("He\/o"
       +:+ nl))]]);
    (quoted "\u112A\uFFFFHexadecimal",
     TList [TStr "value"; TList [TStr "string";
       TStr (quoted "\u112A\uFFFFHexadecimal")]]);
    (quoted "暴徒生活",
     TList [TStr "value"; TList [TStr "string"; TStr (quoted "暴徒生活")]]);
    (("[" +:+ dq +:+ "a" +:+ dq +:+ ", " +:+ dq +:+ "b" +:+ dq +:+ ", "
       +:+ dq +:+ "c" +:+ dq +:+ ", " +:+ dq +:+ nl +:+ dq +:+ "]"),
     TList [TStr "value"; TList [TStr "array"; TStr "[";
       TList [TStr "elements"; TList [TStr "value"; TList [TStr "string";
       TStr (quoted "a")]]; TStr ","; TList [TStr "elements";
       TList [TStr "value"; TList [TStr "string"; TStr (quoted "b")]];
       TStr ","; TList [TStr "elements"; TList [TStr "value";
       TList [TStr "string"; TStr (quoted "c")]]; TStr ",";
       TList [TStr "elements"; TList [TStr "value"; TList [TStr "string";
       TStr (quoted nl)]]]]]]; TStr "]"]]);
    (("{" +:+ dq +:+ "hello" +:+ dq +:+ " : true}"),
     TList [TStr "value"; TList [TStr "object"; TStr "{";
       TList [TStr "members"; TList [TStr "pair"; TList [TStr "string";
       TStr (quoted "hello")]; TStr ":"; TList [TStr "value"; TStr "true"]]];
       TStr "}"]]);
    (("[" +:+ dq +:+ "testing" +:+ dq +:+ ", 1, 2, 3]"),
     TList [TStr "value"; TList [TStr "array"; TStr "[";
       TList [TStr "elements"; TList [TStr "value"; TList [TStr "string";
       TStr (quoted "testing")]]; TStr ","; TList [TStr "elements";
       TList [TStr "value"; TList [TStr "number"; TList [TStr "int";
       TStr "1"]]]; TStr ","; TList [TStr "elements"; TList [TStr "value";
       TList [TStr "number"; TList [TStr "int"; TStr "2"]]]; TStr ",";
       TList [TStr "elements"; TList [TStr "value"; TList [TStr "number";
       TList [TStr "int"; TStr "3"]]]]]]]; TStr "]"]]);
    ("-123.456e+789",
     TList [TStr "value"; TList [TStr "number"; TList [TStr "int";
       TStr "-123"]; TList [TStr "frac"; TStr ".456"]; TList [TStr "exp";
       TStr "e+789"]]]);
    (("{" +:+ dq +:+ "age" +:+ dq +:+ ": 21, " +:+ dq +:+ "state" +:+ dq
       +:+ ":" +:+ dq +:+ "CO" +:+ dq +:+ "," +:+ dq +:+ "occupation" +:+ dq
       +:+ ":" +:+ dq +:+ "rides the rodeo" +:+ dq +:+ "}"),
     TList [TStr "value"; TList [TStr "object"; TStr "{";
       TList [TStr "members"; TList [TStr "pair"; TList [TStr "string";
       TStr (quoted "age")]; TStr ":"; TList [TStr "value";
       TList [TStr "number"; TList [TStr "int"; TStr "21"]]]]; TStr ",";
       TList [TStr "members"; TList [TStr "pair"; TList [TStr "string";
       TStr (quoted "state")]; TStr ":"; TList [TStr "value";
       TList [TStr "string"; TStr (quoted "CO")]]]; TStr ",";
       TList [TStr "members"; TList [TStr "pair"; TList [TStr "string";
       TStr (quoted "occupation")]; TStr ":"; TList [TStr "value";
       TList [TStr "string"; TStr (quoted "rides the rodeo")]]]]]];
       TStr "}"]])
  ].

(** [JSON = grammar(...)] *)
Definition JSON : outcome (gmap string entry) :=
  grammar JSON_description "\s*".

Definition json_parse (fuel : nat) (text : string) : outcome parse_result :=
  G <-! JSON; parse fuel "value" text G.

(** ** Vocabulary of the further properties *)

(** No character of [s] is whitespace. *)
Fixpoint no_space (s : string) : bool :=
  match s with
  | "" => true
  | String c s' => negb (PyStr.isspace c) && no_space s'
  end.

(** A word: a string that is not empty and has no whitespace. *)
Definition is_word (s : string) : Prop := s <> "" /\ no_space s = true.

(** The grammar of [E => E op T | T], a left-recursive rule. *)
Definition left_recursive_grammar : gmap string entry :=
  <[ "E" := ERules [ ["E"; "op"; "T"]; ["T"] ] ]> {[ ws_key := EWs "\s*" ]}.

(** The grammar of [x => a |   | b]: the blank between the two bars gives an
    alternative with no atom. *)
Definition empty_alternative_grammar : gmap string entry :=
  <[ "x" := ERules [ ["a"]; []; ["b"] ] ]> {[ ws_key := EWs "\s*" ]}.

(** Every character of [s] is whitespace. *)
Fixpoint all_space (s : string) : bool :=
  match s with
  | "" => true
  | String c s' => PyStr.isspace c && all_space s'
  end.

(** [s] is not empty and its first character is not whitespace. *)
Definition head_no_space (s : string) : Prop :=
  match s with
  | "" => False
  | String c _ => PyStr.isspace c = false
  end.

(** [t] is a parse tree of [atom] in the grammar [G].  For a terminal it is
    a leaf: the text of group 1 of the match, or [None] when the group took
    no part in it.  For a symbol it is the list of the symbol and of one
    parse tree for each atom of one of its alternatives, in order. *)
#[warnings="-register-all"]
Inductive derives (G : gmap string entry) : string -> tree -> Prop :=
| derives_str atom s :
    G !! atom = None -> derives G atom (TStr s)
| derives_none atom :
    G !! atom = None -> derives G atom TNone
| derives_node atom e alternative children :
    G !! atom = Some e ->
    alternative ∈ alternatives_of e ->
    Forall2 (derives G) alternative children ->
    derives G atom (TList (TStr atom :: children)).
(** * Facts on the matcher *)

Section LoopFacts.
Implicit Types (pa : string -> string -> M parse_result) (c : cache).

Lemma sequence_loop_steps pa sequence text c ts rem c' :
  seq_steps pa sequence text c ts rem c' ->
  forall acc,
    sequence_loop pa sequence acc text c
    = (Done (TList (acc ++ ts), Some rem), c').
Proof.
  induction 1 as [text c|atom sequence text c t text1 c1 ts rem c' Ha _ IH];
    intros acc; simpl.
  - by rewrite app_nil_r.
  - unfold bind. rewrite Ha, IH. by rewrite <- app_assoc.
Qed.

Lemma seq_steps_length pa sequence text c ts rem c' :
  seq_steps pa sequence text c ts rem c' -> length ts = length sequence.
Proof. induction 1; simpl; congruence. Qed.

Lemma sequence_loop_fails pa pre text c ts text1 c1 :
  seq_steps pa pre text c ts text1 c1 ->
  forall acc atom post t c2,
    pa atom text1 c1 = (Done (t, None), c2) ->
    sequence_loop pa (pre ++ atom :: post) acc text c = (Done Fail, c2).
Proof.
  induction 1 as [text c|a pre text c t text1 c1 ts rem c' Ha _ IH];
    intros acc atom post t' c2 Hf; simpl; unfold bind.
  - by rewrite Hf.
  - rewrite Ha. by eapply IH.
Qed.

(** What [parse_sequence] returns has one of two shapes. *)
Lemma sequence_loop_shape pa sequence : forall acc text c r c',
  sequence_loop pa sequence acc text c = (Done r, c') ->
  r = Fail \/ exists ts rem, r = (TList ts, Some rem).
Proof.
  induction sequence as [|atom sequence IH]; intros acc text c r c'; simpl.
  - intros [= <- <-]. right. eauto.
  - unfold bind. destruct (pa atom text c) as [[[t [text'|]]|e|] c1]; try done.
    + apply IH.
    + intros [= <- <-]. by left.
Qed.
End LoopFacts.

Section MoreLoopFacts.
Implicit Types (pa : string -> string -> M parse_result) (c : cache).

Lemma sequence_loop_inv pa sequence : forall acc text c t rem c',
  sequence_loop pa sequence acc text c = (Done (t, Some rem), c') ->
  exists ts, t = TList (acc ++ ts) /\ seq_steps pa sequence text c ts rem c'.
Proof.
  induction sequence as [|atom sequence IH]; intros acc text c t rem c'; simpl.
  - intros [= <- <- <-]. exists []. rewrite app_nil_r. split; [done|constructor].
  - unfold bind. destruct (pa atom text c) as [[[t1 [text'|]]|e|] c1] eqn:E; try done.
    intros Hl. destruct (IH _ _ _ _ _ _ Hl) as (ts & -> & Hs).
    exists (t1 :: ts). rewrite <- app_assoc. split; [done|].
    econstructor; eauto.
Qed.

Lemma string_app_cons x (a b : string) : String x a +:+ b = String x (a +:+ b).
Proof. reflexivity. Qed.

Lemma string_app_assoc (a b d : string) : (a +:+ b) +:+ d = a +:+ (b +:+ d).
Proof.
  induction a as [|x a IH]; [done|]. by rewrite !string_app_cons, IH.
Qed.

Lemma is_suffix_refl s : is_suffix s s.
Proof. by exists "". Qed.

Lemma is_suffix_trans a b d : is_suffix a b -> is_suffix b d -> is_suffix a d.
Proof.
  intros [p ->] [q ->]. exists (q +:+ p). by rewrite string_app_assoc.
Qed.

Lemma is_suffix_drop n : forall s, is_suffix (PyStr.drop n s) s.
Proof.
  induction n as [|n IH]; intros [|x s]; simpl; try apply is_suffix_refl.
  destruct (IH s) as [p Hp]. exists (String x p).
  by rewrite string_app_cons, <- Hp.
Qed.

Lemma result_ok_suffix text text' r :
  is_suffix text' text -> result_ok text' r -> result_ok text r.
Proof.
  destruct r as [t [rem|]]; simpl; [|done].
  intros ? ?. by eapply is_suffix_trans.
Qed.

Lemma sequence_loop_wf pa : pa_wf pa ->
  forall sequence acc text c o c',
    cache_wf c -> sequence_loop pa sequence acc text c = (o, c') ->
    cache_wf c' /\ forall r, o = Done r -> result_ok text r.
Proof.
  intros Hpa. induction sequence as [|atom sequence IH];
    intros acc text c o c' Hc; simpl.
  - intros [= <- <-]. split; [done|]. intros r [= <-]. apply is_suffix_refl.
  - unfold bind. destruct (pa atom text c) as [o1 c1] eqn:E.
    destruct (Hpa _ _ _ _ _ Hc E) as [Hc1 Hr].
    destruct o1 as [[t1 [text'|]]|e|].
    + intros Hl. destruct (IH _ _ _ _ _ Hc1 Hl) as [Hc' Hr'].
      split; [done|]. intros r ->.
      eapply result_ok_suffix; [|by apply Hr'].
      exact (Hr _ eq_refl).
    + intros [= <- <-]. split; [done|]. by intros r [= <-].
    + intros [= <- <-]. by split.
    + intros [= <- <-]. by split.
Qed.

Lemma alternatives_loop_wf pa : pa_wf pa ->
  forall atom alternatives text c o c',
    cache_wf c -> alternatives_loop pa atom alternatives text c = (o, c') ->
    cache_wf c' /\ forall r, o = Done r -> result_ok text r.
Proof.
  intros Hpa atom. induction alternatives as [|alt rest IH];
    intros text c o c' Hc; simpl.
  - intros [= <- <-]. split; [done|]. by intros r [= <-].
  - unfold bind, parse_sequence.
    destruct (sequence_loop pa alt [] text c) as [o1 c1] eqn:E.
    destruct (sequence_loop_wf pa Hpa _ _ _ _ _ _ Hc E) as [Hc1 Hr].
    destruct o1 as [[t1 [rem|]]|e|].
    + unfold lift, ret. destruct (cons_atom atom t1) as [t'|e|].
      * intros [= <- <-]. split; [done|]. intros r [= <-].
        exact (Hr _ eq_refl).
      * intros [= <- <-]. by split.
      * intros [= <- <-]. by split.
    + by apply IH.
    + intros [= <- <-]. by split.
    + intros [= <- <-]. by split.
Qed.

Lemma memo_wf f : pa_wf f -> pa_wf (memo f).
Proof.
  intros Hf atom text c o c' Hc. unfold memo.
  destruct (c !! (atom, text)) as [r|] eqn:El.
  - intros [= <- <-]. split; [done|]. intros r' [= <-]. by eapply Hc.
  - destruct (f atom text c) as [o1 c1] eqn:E.
    destruct (Hf _ _ _ _ _ Hc E) as [Hc1 Hr].
    destruct o1 as [r|e|].
    + intros [= <- <-]. split; [|by intros r' [= <-]; apply Hr].
      intros a t r'. destruct (decide ((atom, text) = (a, t))) as [[= <- <-]|Hne].
      * rewrite lookup_insert_eq. intros [= <-]. by apply Hr.
      * rewrite lookup_insert_ne by done. apply Hc1.
    + intros [= <- <-]. by split.
    + intros [= <- <-]. by split.
Qed.
End MoreLoopFacts.

Section MatcherFacts.
Context `{Host}.
Variable G : gmap string entry.
Variable tokenizer : string.
Implicit Types (pa : string -> string -> M parse_result) (c : cache).

Lemma match_terminal_ok atom text r :
  match_terminal tokenizer atom text = Done r -> result_ok text r.
Proof.
  unfold match_terminal.
  destruct (format tokenizer atom) as [p|e|]; simpl; try done.
  destruct (re_match p text) as [[m|]|e|]; simpl; try done.
  - destruct (group m 1) as [g|e|]; simpl; try done.
    intros [= <-]. apply is_suffix_drop.
  - by intros [= <-].
Qed.

Lemma atom_body_wf pa : pa_wf pa -> pa_wf (atom_body G tokenizer pa).
Proof.
  intros Hpa atom text c o c' Hc. unfold atom_body.
  destruct (G !! atom) as [e|].
  - by apply alternatives_loop_wf.
  - unfold lift. intros [= <- <-]. split; [done|].
    intros r. apply match_terminal_ok.
Qed.

Lemma parse_atom_wf fuel : pa_wf (parse_atom G tokenizer fuel).
Proof.
  induction fuel as [|fuel IH]; simpl.
  - intros atom text c o c' Hc [= <- <-]. by split.
  - by apply memo_wf, atom_body_wf.
Qed.
End MatcherFacts.

Section Monotone.
Implicit Types (pa : string -> string -> M parse_result) (c : cache).

Lemma sequence_loop_mono pa pa' : le_pa pa pa' ->
  forall sequence acc text c o c',
    sequence_loop pa sequence acc text c = (o, c') -> o <> Diverge ->
    sequence_loop pa' sequence acc text c = (o, c').
Proof.
  intros Hle. induction sequence as [|atom sequence IH];
    intros acc text c o c'; simpl; [done|].
  unfold bind. destruct (pa atom text c) as [o1 c1] eqn:E.
  destruct o1 as [[t1 [text'|]]|e|]; intros Hl Ho;
    try (rewrite (Hle _ _ _ _ _ E) by done); auto.
  by simplify_eq.
Qed.

Lemma alternatives_loop_mono pa pa' : le_pa pa pa' ->
  forall atom alternatives text c o c',
    alternatives_loop pa atom alternatives text c = (o, c') -> o <> Diverge ->
    alternatives_loop pa' atom alternatives text c = (o, c').
Proof.
  intros Hle atom. induction alternatives as [|alt rest IH];
    intros text c o c'; simpl; [done|].
  unfold bind, parse_sequence.
  destruct (sequence_loop pa alt [] text c) as [o1 c1] eqn:E.
  destruct o1 as [[t1 [rem|]]|e|]; intros Hl Ho;
    try (rewrite (sequence_loop_mono pa pa' Hle _ _ _ _ _ _ E) by done); auto.
  by simplify_eq.
Qed.

Lemma memo_mono f f' : le_pa f f' -> le_pa (memo f) (memo f').
Proof.
  intros Hle atom text c o c'. unfold memo.
  destruct (c !! (atom, text)) as [r|]; [done|].
  destruct (f atom text c) as [o1 c1] eqn:E.
  destruct o1 as [r|e|]; intros Hl Ho;
    try (rewrite (Hle _ _ _ _ _ E) by done); auto.
  by simplify_eq.
Qed.

Lemma sequence_loop_cache_free pa : cache_free pa ->
  forall sequence acc text c c0,
    sequence_loop pa sequence acc text c
    = (fst (sequence_loop pa sequence acc text c0), c).
Proof.
  intros Hp. induction sequence as [|atom sequence IH];
    intros acc text c c0; simpl; [done|].
  unfold bind. rewrite (Hp atom text c c0).
  destruct (pa atom text c0) as [[[t1 [text'|]]|e|] c1]; simpl; auto.
Qed.

Lemma alternatives_loop_cache_free pa : cache_free pa ->
  forall atom alternatives text c c0,
    alternatives_loop pa atom alternatives text c
    = (fst (alternatives_loop pa atom alternatives text c0), c).
Proof.
  intros Hp atom. induction alternatives as [|alt rest IH];
    intros text c c0; simpl; [done|].
  unfold bind, parse_sequence.
  rewrite (sequence_loop_cache_free pa Hp alt [] text c c0).
  destruct (sequence_loop pa alt [] text c0) as [[[t1 [rem|]]|e|] c1];
    simpl; auto.
  unfold lift, ret. by destruct (cons_atom atom t1).
Qed.

Lemma sequence_loop_raises P pa : raises_only P pa ->
  forall sequence acc text c e c',
    sequence_loop pa sequence acc text c = (Raise e, c') -> P e.
Proof.
  intros Hp. induction sequence as [|atom sequence IH];
    intros acc text c e c'; simpl; [done|].
  unfold bind. destruct (pa atom text c) as [o1 c1] eqn:E.
  destruct o1 as [[t1 [text'|]]|e1|]; try done.
  - apply IH.
  - intros [= <- <-]. by eapply Hp.
Qed.

Lemma alternatives_loop_raises P pa : raises_only P pa ->
  forall atom alternatives text c e c',
    alternatives_loop pa atom alternatives text c = (Raise e, c') -> P e.
Proof.
  intros Hp atom. induction alternatives as [|alt rest IH];
    intros text c e c'; simpl; [done|].
  unfold bind, parse_sequence.
  destruct (sequence_loop pa alt [] text c) as [o1 c1] eqn:E.
  destruct o1 as [[t1 [rem|]]|e1|]; try done.
  - destruct (sequence_loop_shape _ _ _ _ _ _ _ E) as [[=]|(ts & rem' & [= -> ->])].
    by simpl.
  - apply IH.
  - intros [= <- <-]. by eapply sequence_loop_raises.
Qed.

Lemma memo_raises P f : raises_only P f -> raises_only P (memo f).
Proof.
  intros Hf atom text c e c'. unfold memo.
  destruct (c !! (atom, text)) as [r|]; [done|].
  destruct (f atom text c) as [[r|e1|] c1] eqn:E; try done.
  intros [= <- <-]. by eapply Hf.
Qed.
End Monotone.

Section Agreement.
Context `{Host}.
Variable G : gmap string entry.
Variable tokenizer : string.
Implicit Types (pa : string -> string -> M parse_result) (c : cache).

Local Abbreviation pn := (parse_atom_nomemo G tokenizer).
Local Abbreviation pm := (parse_atom G tokenizer).

Lemma atom_body_mono pa pa' :
  le_pa pa pa' -> le_pa (atom_body G tokenizer pa) (atom_body G tokenizer pa').
Proof.
  intros Hle atom text c o c'. unfold atom_body.
  destruct (G !! atom); [|done]. by apply alternatives_loop_mono.
Qed.

Lemma parse_atom_mono n : forall m, n <= m -> le_pa (pm n) (pm m).
Proof.
  induction n as [|n IH]; intros m Hm.
  - intros atom text c o c' [= <- <-]. done.
  - destruct m as [|m]; [lia|]. simpl.
    apply memo_mono, atom_body_mono, IH. lia.
Qed.

Lemma parse_atom_nomemo_mono n : forall m, n <= m -> le_pa (pn n) (pn m).
Proof.
  induction n as [|n IH]; intros m Hm.
  - intros atom text c o c' [= <- <-]. done.
  - destruct m as [|m]; [lia|]. simpl. apply atom_body_mono, IH. lia.
Qed.

Lemma parse_atom_nomemo_cache_free n : cache_free (pn n).
Proof.
  induction n as [|n IH]; intros atom text c c0; simpl; [done|].
  unfold atom_body. destruct (G !! atom); [|done].
  by apply alternatives_loop_cache_free.
Qed.

Lemma parse_atom_nomemo_eval n atom text c :
  pn n atom text c = (eval G tokenizer n atom text, c).
Proof. apply parse_atom_nomemo_cache_free. Qed.

Lemma eval_mono n m atom text o :
  eval G tokenizer n atom text = o -> o <> Diverge -> n <= m ->
  eval G tokenizer m atom text = o.
Proof.
  unfold eval. intros He Ho Hm.
  destruct (pn n atom text ∅) as [o1 c1] eqn:E. simpl in He. subst o1.
  by rewrite (parse_atom_nomemo_mono n m Hm _ _ _ _ _ E Ho).
Qed.

Lemma returns_functional atom text o1 o2 :
  returns G tokenizer atom text o1 -> returns G tokenizer atom text o2 ->
  o1 = o2.
Proof.
  intros [Ho1 [n1 H1]] [Ho2 [n2 H2]].
  rewrite <- (eval_mono n1 (n1 `max` n2) atom text o1 H1 Ho1) by lia.
  by rewrite <- (eval_mono n2 (n1 `max` n2) atom text o2 H2 Ho2) by lia.
Qed.
End Agreement.

Section MemoAgreement.
Context `{Host}.
Variable G : gmap string entry.
Variable tokenizer : string.
Implicit Types (pa : string -> string -> M parse_result) (c : cache).

Local Abbreviation pn := (parse_atom_nomemo G tokenizer).
Local Abbreviation pm := (parse_atom G tokenizer).
Local Abbreviation sound := (pa_sound G tokenizer).
Local Abbreviation csound := (cache_sound G tokenizer).

Lemma cache_sound_empty : csound ∅.
Proof. intros atom text r. by rewrite lookup_empty. Qed.

Lemma cache_sound_insert c atom text r :
  csound c -> returns G tokenizer atom text (Done r) ->
  csound (<[(atom, text) := r]> c).
Proof.
  intros Hc Hr a t r'.
  destruct (decide ((atom, text) = (a, t))) as [[= <- <-]|Hne].
  - rewrite lookup_insert_eq. by intros [= <-].
  - rewrite lookup_insert_ne by done. apply Hc.
Qed.

(** The undecorated loops, run on the undecorated function. *)
Lemma sequence_loop_nomemo_mono n m sequence acc text o :
  fst (sequence_loop (pn n) sequence acc text ∅) = o -> o <> Diverge ->
  n <= m -> fst (sequence_loop (pn m) sequence acc text ∅) = o.
Proof.
  intros He Ho Hm.
  destruct (sequence_loop (pn n) sequence acc text ∅) as [o1 c1] eqn:E.
  simpl in He. subst o1.
  by rewrite (sequence_loop_mono _ _ (parse_atom_nomemo_mono G tokenizer n m Hm)
                _ _ _ _ _ _ E Ho).
Qed.

Lemma alternatives_loop_nomemo_mono n m atom alternatives text o :
  fst (alternatives_loop (pn n) atom alternatives text ∅) = o ->
  o <> Diverge -> n <= m ->
  fst (alternatives_loop (pn m) atom alternatives text ∅) = o.
Proof.
  intros He Ho Hm.
  destruct (alternatives_loop (pn n) atom alternatives text ∅) as [o1 c1] eqn:E.
  simpl in He. subst o1.
  by rewrite (alternatives_loop_mono _ _ (parse_atom_nomemo_mono G tokenizer n m Hm)
                _ _ _ _ _ _ E Ho).
Qed.

Lemma sequence_loop_nomemo_step n atom sequence acc text :
  fst (sequence_loop (pn n) (atom :: sequence) acc text ∅)
  = match eval G tokenizer n atom text with
    | Done (_, None) => Done Fail
    | Done (t, Some text') =>
        fst (sequence_loop (pn n) sequence (acc ++ [t]) text' ∅)
    | Raise e => Raise e
    | Diverge => Diverge
    end.
Proof.
  simpl. unfold bind. rewrite parse_atom_nomemo_eval.
  by destruct (eval G tokenizer n atom text) as [[t [text'|]]|e|].
Qed.

Lemma alternatives_loop_nomemo_step n atom alt rest text :
  fst (alternatives_loop (pn n) atom (alt :: rest) text ∅)
  = match fst (sequence_loop (pn n) alt [] text ∅) with
    | Done (t, Some rem) => t' <-! cons_atom atom t; Done (t', Some rem)
    | Done (_, None) => fst (alternatives_loop (pn n) atom rest text ∅)
    | Raise e => Raise e
    | Diverge => Diverge
    end.
Proof.
  simpl. unfold bind, parse_sequence.
  pose proof (sequence_loop_cache_free _
    (parse_atom_nomemo_cache_free G tokenizer n) alt [] text ∅ ∅) as Hf.
  destruct (sequence_loop (pn n) alt [] text ∅) as [o1 c1].
  simpl in *. injection Hf as ->.
  destruct o1 as [[t [rem|]]|e|]; try done.
  unfold lift, ret. by destruct (cons_atom atom t).
Qed.

Lemma sequence_loop_sound pa : sound pa ->
  forall sequence acc text c o c',
    csound c -> sequence_loop pa sequence acc text c = (o, c') ->
    csound c' /\
    (o <> Diverge ->
     exists n, fst (sequence_loop (pn n) sequence acc text ∅) = o).
Proof.
  intros Hpa. induction sequence as [|atom sequence IH];
    intros acc text c o c' Hc Hl.
  - injection Hl as <- <-. split; [done|]. intros _. by exists 0.
  - simpl in Hl. unfold bind in Hl.
    destruct (pa atom text c) as [o1 c1] eqn:E.
    destruct (Hpa _ _ _ _ _ Hc E) as [Hc1 Hr].
    destruct o1 as [[t1 [text'|]]|e|].
    + destruct (IH _ _ _ _ _ Hc1 Hl) as [Hc' Hn].
      split; [done|]. intros Ho.
      destruct (Hn Ho) as [n2 H2]. destruct Hr as [_ [n1 H1]]; [done|].
      exists (n1 `max` n2). rewrite sequence_loop_nomemo_step.
      rewrite (eval_mono G tokenizer n1 _ _ _ _ H1) by (done || lia).
      apply (sequence_loop_nomemo_mono n2); [done..|lia].
    + injection Hl as <- <-. split; [done|]. intros _.
      destruct Hr as [_ [n1 H1]]; [done|]. exists n1.
      by rewrite sequence_loop_nomemo_step, H1.
    + injection Hl as <- <-. split; [done|]. intros _.
      destruct Hr as [_ [n1 H1]]; [done|]. exists n1.
      by rewrite sequence_loop_nomemo_step, H1.
    + injection Hl as <- <-. by split.
Qed.

Lemma alternatives_loop_sound pa : sound pa ->
  forall atom alternatives text c o c',
    csound c -> alternatives_loop pa atom alternatives text c = (o, c') ->
    csound c' /\
    (o <> Diverge ->
     exists n, fst (alternatives_loop (pn n) atom alternatives text ∅) = o).
Proof.
  intros Hpa atom. induction alternatives as [|alt rest IH];
    intros text c o c' Hc Hl.
  - injection Hl as <- <-. split; [done|]. intros _. by exists 0.
  - simpl in Hl. unfold bind, parse_sequence in Hl.
    destruct (sequence_loop pa alt [] text c) as [o1 c1] eqn:E.
    destruct (sequence_loop_sound pa Hpa _ _ _ _ _ _ Hc E) as [Hc1 Hr].
    destruct o1 as [[t1 [rem|]]|e|].
    + unfold lift, ret in Hl.
      assert (c' = c1 /\ o = (t' <-! cons_atom atom t1; Done (t', Some rem)))
        as [-> ->] by (by destruct (cons_atom atom t1); simplify_eq).
      split; [done|]. intros _. destruct Hr as [n1 H1]; [done|]. exists n1.
      by rewrite alternatives_loop_nomemo_step, H1.
    + destruct (IH _ _ _ _ Hc1 Hl) as [Hc' Hn].
      split; [done|]. intros Ho.
      destruct (Hn Ho) as [n2 H2]. destruct Hr as [n1 H1]; [done|].
      exists (n1 `max` n2). rewrite alternatives_loop_nomemo_step.
      rewrite (sequence_loop_nomemo_mono n1 _ _ _ _ _ H1) by (done || lia).
      apply (alternatives_loop_nomemo_mono n2); [done..|lia].
    + injection Hl as <- <-. split; [done|]. intros _.
      destruct Hr as [n1 H1]; [done|]. exists n1.
      by rewrite alternatives_loop_nomemo_step, H1.
    + injection Hl as <- <-. by split.
Qed.

Lemma eval_succ n atom text :
  eval G tokenizer (S n) atom text
  = match G !! atom with
    | Some e => fst (alternatives_loop (pn n) atom (alternatives_of e) text ∅)
    | None => match_terminal tokenizer atom text
    end.
Proof. unfold eval. simpl. unfold atom_body. by destruct (G !! atom). Qed.

Lemma atom_body_sound pa : sound pa -> sound (atom_body G tokenizer pa).
Proof.
  intros Hpa atom text c o c' Hc. unfold atom_body.
  destruct (G !! atom) as [e|] eqn:Eg.
  - intros Hl.
    destruct (alternatives_loop_sound pa Hpa _ _ _ _ _ _ Hc Hl) as [Hc' Hn].
    split; [done|]. intros Ho. split; [done|].
    destruct (Hn Ho) as [n Hn']. exists (S n). by rewrite eval_succ, Eg.
  - intros [= <- <-]. split; [done|]. intros Ho. split; [done|].
    exists 1. by rewrite eval_succ, Eg.
Qed.

Lemma memo_sound f : sound f -> sound (memo f).
Proof.
  intros Hf atom text c o c' Hc. unfold memo.
  destruct (c !! (atom, text)) as [r|] eqn:El.
  - intros [= <- <-]. split; [done|]. intros _. by apply Hc.
  - destruct (f atom text c) as [o1 c1] eqn:E.
    destruct (Hf _ _ _ _ _ Hc E) as [Hc1 Hr].
    destruct o1 as [r|e|]; intros [= <- <-]; split; auto.
    apply cache_sound_insert; [done|]. by apply Hr.
Qed.

Lemma parse_atom_sound n : sound (pm n).
Proof.
  induction n as [|n IH]; simpl.
  - intros atom text c o c' Hc [= <- <-]. by split.
  - by apply memo_sound, atom_body_sound.
Qed.

Lemma sequence_loop_complete n pa :
  sound pa -> pa_complete G tokenizer n pa ->
  forall sequence acc text c o,
    csound c -> fst (sequence_loop (pn n) sequence acc text ∅) = o ->
    o <> Diverge -> exists c', sequence_loop pa sequence acc text c = (o, c').
Proof.
  intros Hs Hpa. induction sequence as [|atom sequence IH];
    intros acc text c o Hc.
  - simpl. intros <- _. by eexists.
  - rewrite sequence_loop_nomemo_step. simpl. unfold bind.
    destruct (eval G tokenizer n atom text) as [[t [text'|]]|e|] eqn:E;
      intros He Ho.
    + destruct (Hpa _ _ c _ Hc E) as [c1 E1]; [done|]. rewrite E1.
      apply IH; [|done..]. by destruct (Hs _ _ _ _ _ Hc E1).
    + destruct (Hpa _ _ c _ Hc E) as [c1 E1]; [done|]. rewrite E1.
      subst o. by eexists.
    + destruct (Hpa _ _ c _ Hc E) as [c1 E1]; [done|]. rewrite E1.
      subst o. by eexists.
    + by subst o.
Qed.

Lemma alternatives_loop_complete n pa :
  sound pa -> pa_complete G tokenizer n pa ->
  forall atom alternatives text c o,
    csound c -> fst (alternatives_loop (pn n) atom alternatives text ∅) = o ->
    o <> Diverge ->
    exists c', alternatives_loop pa atom alternatives text c = (o, c').
Proof.
  intros Hs Hpa atom. induction alternatives as [|alt rest IH];
    intros text c o Hc.
  - simpl. intros <- _. by eexists.
  - rewrite alternatives_loop_nomemo_step. simpl. unfold bind, parse_sequence.
    destruct (fst (sequence_loop (pn n) alt [] text ∅))
      as [[t [rem|]]|e|] eqn:E; intros He Ho.
    + destruct (sequence_loop_complete n pa Hs Hpa _ _ _ c _ Hc E) as [c1 E1];
        [done|]. rewrite E1. unfold lift, ret. subst o.
      destruct (cons_atom atom t); by eexists.
    + destruct (sequence_loop_complete n pa Hs Hpa _ _ _ c _ Hc E) as [c1 E1];
        [done|]. rewrite E1. apply IH; [|done..].
      by destruct (sequence_loop_sound pa Hs _ _ _ _ _ _ Hc E1).
    + destruct (sequence_loop_complete n pa Hs Hpa _ _ _ c _ Hc E) as [c1 E1];
        [done|]. rewrite E1. subst o. by eexists.
    + by subst o.
Qed.

Lemma parse_atom_complete n : pa_complete G tokenizer n (pm n).
Proof.
  induction n as [|n IH]; intros atom text c o Hc He Ho.
  - by subst o.
  - simpl. unfold memo. destruct (c !! (atom, text)) as [r|] eqn:El.
    + exists c. f_equal.
      apply (returns_functional G tokenizer atom text); [by apply Hc|].
      split; [done|]. by exists (S n).
    + rewrite eval_succ in He. unfold atom_body.
      destruct (G !! atom) as [e|].
      * destruct (alternatives_loop_complete n (pm n) (parse_atom_sound n) IH
                    _ _ _ c _ Hc He Ho) as [c1 ->].
        destruct o; by eexists.
      * unfold lift. rewrite He. destruct o; by eexists.
Qed.
End MemoAgreement.

Section OrderedChoice.
Context `{Host}.
Variable G : gmap string entry.
Variable tokenizer : string.

Lemma eval_sequence_shape n sequence text r :
  eval_sequence G tokenizer n sequence text = Done r ->
  r = Fail \/ exists children rem, r = (TList children, Some rem).
Proof.
  unfold eval_sequence, parse_sequence.
  destruct (sequence_loop _ sequence [] text ∅) as [o c] eqn:E. simpl.
  intros ->. by eapply sequence_loop_shape.
Qed.

(** The undecorated loop over the alternatives is an ordered choice. *)
Lemma alternatives_loop_nomemo_first n atom text alternatives : forall r,
  fst (alternatives_loop (parse_atom_nomemo G tokenizer n) atom alternatives
         text ∅) = Done r ->
  first_success G tokenizer n atom alternatives text r.
Proof.
  induction alternatives as [|alt rest IH]; intros r.
  - simpl. intros [= <-]. right. split; [|done].
    intros a Ha. by apply elem_of_nil in Ha.
  - rewrite alternatives_loop_nomemo_step.
    pose proof (eval_sequence_shape n alt text) as Hshape.
    unfold eval_sequence, parse_sequence in Hshape.
    destruct (fst (sequence_loop _ alt [] text ∅)) as [[t [rem|]]|e|] eqn:E;
      try done.
    + destruct (Hshape _ eq_refl) as [[=]|(children & rem' & [= -> ->])].
      simpl. intros [= <-]. left.
      exists [], alt, rest, children, rem'. repeat split; try done.
      intros a Ha. by apply elem_of_nil in Ha.
    + destruct (Hshape _ eq_refl) as [[= ->]|(children & rem' & [=])].
      intros Hr. destruct (IH _ Hr)
        as [(pre & a & post & children & rem & -> & Hpre & Ha & ->)|[Hall ->]].
      * left. exists (alt :: pre), a, post, children, rem.
        repeat split; try done.
        intros b [->|Hb]%elem_of_cons; [exact E|by apply Hpre].
      * right. split; [|done].
        intros b [->|Hb]%elem_of_cons; [exact E|by apply Hall].
Qed.

(** Whatever [parse_atom] returns on a non-terminal from a sound cache,
    stored or computed, is an ordered choice among the alternatives. *)
Lemma parse_atom_first_success fuel atom e text c r c' :
  G !! atom = Some e ->
  cache_sound G tokenizer c ->
  parse_atom G tokenizer fuel atom text c = (Done r, c') ->
  exists n, first_success G tokenizer n atom (alternatives_of e) text r.
Proof.
  intros Hg Hc Hp.
  destruct (parse_atom_sound G tokenizer fuel _ _ _ _ _ Hc Hp) as [_ Hr].
  destruct Hr as [_ [[|n] Hn]]; [done|done|].
  rewrite eval_succ, Hg in Hn. exists n.
  by apply alternatives_loop_nomemo_first.
Qed.
End OrderedChoice.

(** * Facts on the compiler *)

Section StripFacts.
Import PyStr.

Lemma lstrip_head s :
  match lstrip s with "" => True | String c _ => isspace c = false end.
Proof.
  induction s as [|c s IH]; simpl; [done|].
  destruct (isspace c) eqn:E; [done|]. exact E.
Qed.

Lemma rstrip_head s :
  match s with
  | "" => True
  | String c _ =>
      isspace c = false ->
      match rstrip s with "" => False | String d _ => d = c end
  end.
Proof. destruct s as [|c s]; simpl; [done|]. by intros ->. Qed.

(** A stripped string does not begin with whitespace. *)
Lemma strip_head s :
  match strip s with "" => True | String c _ => isspace c = false end.
Proof.
  unfold strip. pose proof (lstrip_head s) as Hl.
  pose proof (rstrip_head (lstrip s)) as Hr.
  destruct (lstrip s) as [|c s']; [done|].
  specialize (Hr Hl). destruct (rstrip (String c s')); [done|]. by subst.
Qed.

Lemma strip_not_ws_key s : strip s <> ws_key.
Proof.
  pose proof (strip_head s) as Hs. intros E. rewrite E in Hs. done.
Qed.

Lemma startswith_rstrip : forall sep s,
  startswith sep (rstrip s) = true -> startswith sep s = true.
Proof.
  induction sep as [|a sep IH]; intros [|c s]; simpl; try done.
  destruct (isspace c && is_empty (rstrip s)); simpl; [done|].
  intros [-> Hs]%andb_prop. by rewrite (IH _ Hs).
Qed.

Lemma contains_nil s : contains "" s = true.
Proof. by destruct s. Qed.

Lemma contains_rstrip sep s :
  contains sep (rstrip s) = true -> contains sep s = true.
Proof.
  induction s as [|c s IH]; [done|].
  intros Hc. destruct sep as [|a sep]; [apply contains_nil|].
  pose proof (startswith_rstrip (String a sep) (String c s)) as Hp.
  simpl in Hc, Hp |- *.
  destruct (isspace c && is_empty (rstrip s)); simpl in Hc; [done|].
  apply orb_prop in Hc as [Hc|Hc].
  - by rewrite (Hp Hc).
  - rewrite (IH Hc). apply orb_true_r.
Qed.

Lemma contains_lstrip sep s :
  contains sep (lstrip s) = true -> contains sep s = true.
Proof.
  induction s as [|c s IH]; [done|]. simpl lstrip.
  destruct (isspace c); [|done].
  intros Hc. simpl. rewrite (IH Hc). apply orb_true_r.
Qed.

Lemma contains_strip sep s :
  contains sep (strip s) = true -> contains sep s = true.
Proof. intros Hc. by apply contains_lstrip, contains_rstrip. Qed.

Lemma split_on_nonempty sep skip budget s : split_on sep skip budget s <> [].
Proof.
  revert skip budget. induction s as [|c s IH]; intros skip budget; simpl;
    [done|].
  destruct skip; [|apply IH].
  destruct (may_split budget && startswith sep (String c s)); [done|].
  specialize (IH 0 budget). by destruct (split_on sep 0 budget s).
Qed.

(** Without an occurrence of the separator the text is the one piece. *)
Lemma split_on_no_sep sep budget s :
  contains sep s = false -> split_on sep 0 budget s = [s].
Proof.
  induction s as [|c s IH]; [done|].
  intros Hc. cbn [contains] in Hc. apply orb_false_elim in Hc as [Hp Hc].
  cbn [split_on]. rewrite Hp, andb_false_r, (IH Hc). done.
Qed.

Lemma length_push c pieces :
  pieces <> [] -> length (push c pieces) = length pieces.
Proof. by destruct pieces. Qed.

(** [maxsplit] splits give at most [maxsplit + 1] pieces. *)
Lemma split_on_length sep s : forall skip n,
  length (split_on sep skip (Some n) s) <= S n.
Proof.
  induction s as [|c s IH]; intros skip n; [simpl; lia|].
  cbn [split_on]. destruct skip; [|apply IH].
  destruct (may_split (Some n)) eqn:Em; cbn [andb];
    [destruct (startswith sep (String c s))|].
  - destruct n as [|n]; [done|]. cbn [spend Nat.pred length].
    apply le_n_S, IH.
  - rewrite length_push by apply split_on_nonempty. apply IH.
  - rewrite length_push by apply split_on_nonempty. apply IH.
Qed.
End StripFacts.

Section CompilerFacts.

Lemma split_stripped text sep maxsplit pieces :
  split text sep maxsplit = Done pieces ->
  forall p, p ∈ pieces -> exists t, p = PyStr.strip t.
Proof.
  unfold split.
  destruct (PyStr.str_split (PyStr.strip text) sep maxsplit) as [ps|e|];
    simpl; try done.
  intros [= <-] p Hp. apply list_elem_of_fmap in Hp as (t & -> & _). eauto.
Qed.

Lemma split_not_ws_key text sep maxsplit pieces :
  split text sep maxsplit = Done pieces -> ws_key ∉ pieces.
Proof.
  intros Hs Hin. destruct (split_stripped _ _ _ _ Hs _ Hin) as [t Ht].
  by apply (strip_not_ws_key t).
Qed.

Lemma add_rule_rule_of G line :
  add_rule G line
  = ('(lhs, rules) <-! rule_of line; Done (<[lhs := ERules rules]> G)).
Proof.
  unfold add_rule, rule_of.
  destruct (split line (Some " => ") 1) as [[|lhs [|rhs [|x pieces]]]|e|];
    cbn [obind]; try done.
  destruct (split rhs (Some " | ") (-1)) as [alts|e|]; cbn [obind]; try done.
  by destruct (omap _ alts).
Qed.

Lemma rule_of_lhs line lhs rules :
  rule_of line = Done (lhs, rules) -> lhs <> ws_key.
Proof.
  unfold rule_of.
  destruct (split line (Some " => ") 1) as [pieces|e|] eqn:Es; cbn [obind];
    try done.
  destruct pieces as [|l [|rhs [|x pieces]]]; try done.
  destruct (split rhs (Some " | ") (-1)) as [alts|e|]; cbn [obind]; try done.
  destruct (omap _ alts); cbn [obind]; try done.
  intros [= <- <-] ->. apply (split_not_ws_key _ _ _ _ Es). set_solver.
Qed.

Lemma split_never_raises text sep maxsplit :
  sep <> Some "" -> exists pieces, split text sep maxsplit = Done pieces.
Proof.
  intros Hs. unfold split, PyStr.str_split.
  destruct sep as [[|c sep]|]; [done|by eexists..].
Qed.

Lemma split_arrow_length line pieces :
  split line (Some " => ") 1 = Done pieces -> length pieces <= 2.
Proof.
  unfold split. cbn [PyStr.str_split obind]. intros [= <-].
  rewrite length_map.
  etrans; [apply length_filter|]. apply split_on_length.
Qed.

Lemma omap_total {A B} (f : A -> outcome B) l :
  (forall x, exists y, f x = Done y) -> exists ys, omap f l = Done ys.
Proof.
  intros Hf. induction l as [|x l [ys IH]]; simpl; [by eexists|].
  destruct (Hf x) as [y ->]. simpl. rewrite IH. by eexists.
Qed.

(** A line is a rule, or the unpacking of its pieces raises. *)
Lemma rule_of_cases line :
  (exists lhs rules, rule_of line = Done (lhs, rules))
  \/ (exists got, got < 2 /\ rule_of line = Raise (UnpackError 2 got)).
Proof.
  unfold rule_of.
  destruct (split_never_raises line (Some " => ") 1) as [pieces Hp]; [done|].
  rewrite Hp. cbn [obind]. pose proof (split_arrow_length _ _ Hp) as Hl.
  destruct pieces as [|lhs [|rhs [|x pieces]]]; simpl in Hl.
  - right. exists 0. split; [lia|done].
  - right. exists 1. split; [lia|done].
  - left.
    destruct (split_never_raises rhs (Some " | ") (-1)) as [alts ->]; [done|].
    cbn [obind].
    destruct (omap_total (fun a => split a None (-1)) alts) as [rules ->].
    { intros a. by apply split_never_raises. }
    cbn [obind]. eauto.
  - lia.
Qed.

(** A line without [' => '] is not a rule. *)
Lemma rule_of_no_arrow line :
  PyStr.contains " => " line = false ->
  exists got, got < 2 /\ rule_of line = Raise (UnpackError 2 got).
Proof.
  intros Hc.
  assert (Hs : PyStr.contains " => " (PyStr.strip line) = false).
  { destruct (PyStr.contains " => " (PyStr.strip line)) eqn:E; [|done].
    apply contains_strip in E. congruence. }
  unfold rule_of, split. cbn [PyStr.str_split obind].
  rewrite (split_on_no_sep _ _ _ Hs), filter_cons, filter_nil.
  destruct (decide (PyStr.strip line <> "")); simpl.
  - exists 1. split; [lia|done].
  - exists 0. split; [lia|done].
Qed.

Lemma omap_rule_of_raises lines line :
  line ∈ lines ->
  (exists got, got < 2 /\ rule_of line = Raise (UnpackError 2 got)) ->
  exists got, got < 2 /\ omap rule_of lines = Raise (UnpackError 2 got).
Proof.
  intros Hin Hr. induction lines as [|l lines IH]; [by apply elem_of_nil in Hin|].
  simpl. destruct (rule_of_cases l) as [(lhs & rules & Hl)|(got & Hg & Hl)];
    rewrite Hl; cbn [obind]; [|by eauto].
  apply elem_of_cons in Hin as [->|Hin].
  - destruct Hr as (got & _ & Hr). congruence.
  - destruct (IH Hin) as (got & Hg & ->). cbn [obind]. eauto.
Qed.

Lemma ofold_add_rule lines : forall G,
  ofold add_rule G lines
  = (rules <-! omap rule_of lines; Done (foldl insert_rule G rules)).
Proof.
  induction lines as [|line lines IH]; intros G; simpl; [done|].
  rewrite add_rule_rule_of.
  destruct (rule_of line) as [[lhs rules]|e|]; simpl; try done.
  rewrite IH. by destruct (omap rule_of lines).
Qed.

Lemma grammar_rules description whitespace :
  grammar description whitespace
  = (lines <-! rule_lines description;
     rules <-! omap rule_of lines;
     Done (foldl insert_rule {[ ws_key := EWs whitespace ]} rules)).
Proof.
  unfold grammar, rule_lines.
  destruct (split _ (Some nl) (-1)) as [lines|e|]; simpl; try done.
  apply ofold_add_rule.
Qed.

Lemma omap_rule_of_lhs lines rules :
  omap rule_of lines = Done rules -> ws_key ∉ map fst rules.
Proof.
  revert rules. induction lines as [|line lines IH]; intros rules; simpl.
  - intros [= <-]. apply not_elem_of_nil.
  - destruct (rule_of line) as [[lhs r]|e|] eqn:E; simpl; try done.
    destruct (omap rule_of lines) as [rs|e|]; simpl; try done.
    intros [= <-]. simpl. apply not_elem_of_cons. split; [|by apply IH].
    intros Hk. by apply (rule_of_lhs _ _ _ E).
Qed.

Lemma foldl_insert_rule_other rules : forall G k,
  k ∉ map fst rules -> foldl insert_rule G rules !! k = G !! k.
Proof.
  induction rules as [|[lhs r] rules IH]; intros G k Hk; simpl; [done|].
  simpl in Hk. apply not_elem_of_cons in Hk as [Hne Hk].
  rewrite IH by done. unfold insert_rule. simpl. by rewrite lookup_insert_ne.
Qed.

(** A compiled grammar keeps the whitespace pattern under the key [' ']. *)
Lemma grammar_ws_key description whitespace G :
  grammar description whitespace = Done G ->
  G !! ws_key = Some (EWs whitespace).
Proof.
  rewrite grammar_rules.
  destruct (rule_lines description) as [lines|e|]; cbn [obind]; try done.
  destruct (omap rule_of lines) as [rules|e|] eqn:E; cbn [obind]; try done.
  intros [= <-].
  rewrite foldl_insert_rule_other by (by eapply omap_rule_of_lhs).
  apply lookup_singleton_eq.
Qed.

Lemma foldl_insert_rule_last rules : forall G lhs alternatives,
  last_rule rules lhs alternatives ->
  foldl insert_rule G rules !! lhs = Some (ERules alternatives).
Proof.
  intros G lhs alternatives (before & after & -> & Hk).
  rewrite foldl_app. simpl. rewrite foldl_insert_rule_other by done.
  unfold insert_rule at 1. simpl. apply lookup_insert_eq.
Qed.

Lemma last_rule_exists rules lhs :
  lhs ∈ map fst rules -> exists alternatives, last_rule rules lhs alternatives.
Proof.
  induction rules as [|[l r] rules IH]; simpl; intros Hin;
    [by apply elem_of_nil in Hin|].
  destruct (decide (lhs ∈ map fst rules)) as [Hl|Hl].
  - destruct (IH Hl) as (alts & before & after & -> & Hk).
    exists alts, ((l, r) :: before), after. by split.
  - apply elem_of_cons in Hin as [->|Hin]; [|done].
    exists r, [], rules. by split.
Qed.
End CompilerFacts.

Section ArrowFacts.
Import PyStr.

Lemma rstrip_idem s : rstrip (rstrip s) = rstrip s.
Proof.
  induction s as [|c s IH]; [done|]. cbn [rstrip].
  destruct (isspace c && is_empty (rstrip s)) eqn:E; [done|].
  cbn [rstrip]. by rewrite IH, E.
Qed.

Lemma lstrip_id s :
  match s with "" => True | String c _ => isspace c = false end ->
  lstrip s = s.
Proof. destruct s as [|c s]; simpl; [done|]. by intros ->. Qed.

Lemma strip_idem s : strip (strip s) = strip s.
Proof.
  unfold strip at 1. rewrite lstrip_id by apply strip_head.
  unfold strip. apply rstrip_idem.
Qed.





(** Once the budget of splits is spent the rest is one piece. *)
Lemma split_on_spent sep s : forall skip,
  split_on sep skip (Some 0) s = [drop skip s].
Proof.
  induction s as [|c s IH]; intros [|k]; cbn [split_on drop]; try done.
  cbn [may_split andb]. by rewrite IH.
Qed.

Lemma startswith_app : forall sep s,
  startswith sep s = true -> s = sep +:+ drop (String.length sep) s.
Proof.
  induction sep as [|a sep IH]; intros [|b s]; simpl; try done.
  intros [Hab Hs]%andb_prop. apply Ascii.eqb_eq in Hab as ->.
  rewrite string_app_cons. f_equal. by apply IH.
Qed.

(** Split once, a text with an occurrence of the separator gives the part
    before the first occurrence and the part after it. *)
Lemma split_on_first sep s :
  sep <> "" -> contains sep s = true ->
  exists pre post,
    split_on sep 0 (Some 1) s = [pre; post]
    /\ s = pre +:+ sep +:+ post
    /\ (pre = "" -> startswith sep s = true).
Proof.
  intros Hsep. induction s as [|c s IH]; intros Hc.
  - destruct sep; [done|]. simpl in Hc. done.
  - cbn [split_on may_split andb].
    destruct (startswith sep (String c s)) eqn:E.
    + exists "", (drop (pred (String.length sep)) s). split; [|split; [|done]].
      * cbn [spend Nat.pred]. by rewrite split_on_spent.
      * rewrite (startswith_app _ _ E) at 1. destruct sep; [done|]. done.
    + cbn [contains] in Hc. rewrite E in Hc. simpl in Hc.
      destruct (IH Hc) as (pre & post & -> & -> & _).
      exists (String c pre), post. by repeat split.
Qed.
End ArrowFacts.

Section ArrowRules.




End ArrowRules.

(** * The claims on the matcher *)

(** C2. [parse_sequence] matches the atoms in order, each from the
    remainder of the one before, and collects one child tree per atom: it
    returns a list and a remainder exactly when every atom succeeds in
    turn.  When the atoms of a prefix succeed and the next atom returns the
    remainder [None], the sequence returns [Fail] at once, with the cache
    as that atom left it: the trees of the prefix are dropped, and no atom
    is matched again. *)
Theorem parse_sequence_in_order `{Host} G tokenizer fuel sequence text c :
  (forall ts rem c',
      parse_sequence (parse_atom G tokenizer fuel) sequence text c
      = (Done (TList ts, Some rem), c')
      <-> seq_steps (parse_atom G tokenizer fuel) sequence text c ts rem c')
  /\ (forall ts rem c',
      seq_steps (parse_atom G tokenizer fuel) sequence text c ts rem c' ->
      length ts = length sequence)
  /\ (forall pre atom post ts text1 c1 t c2,
      sequence = pre ++ atom :: post ->
      seq_steps (parse_atom G tokenizer fuel) pre text c ts text1 c1 ->
      parse_atom G tokenizer fuel atom text1 c1 = (Done (t, None), c2) ->
      parse_sequence (parse_atom G tokenizer fuel) sequence text c
      = (Done Fail, c2)).
Proof.
  repeat split.
  - intros Hl. unfold parse_sequence in Hl.
    destruct (sequence_loop_inv _ _ _ _ _ _ _ _ Hl) as (ts' & [= ->] & Hs).
    done.
  - intros Hs. unfold parse_sequence.
    by rewrite (sequence_loop_steps _ _ _ _ _ _ _ Hs).
  - apply seq_steps_length.
  - intros pre atom post ts text1 c1 t c2 -> Hs Hf.
    unfold parse_sequence. by eapply sequence_loop_fails.
Qed.

Lemma parse_sequence_in_order_witness :
  let pa := parse_atom bare_grammar "\s*(%s)" 1 in
  exists c1 c2,
    seq_steps pa ["a"] "a c" ∅ [TStr "a"] " c" c1
    /\ pa "b" " c" c1 = (Done Fail, c2)
    /\ parse_sequence pa ["a"; "b"; "c"] "a c" ∅ = (Done Fail, c2).
Proof.
  intros pa.
  pose (c1 := snd (pa "a" "a c" ∅)).
  pose (c2 := snd (pa "b" " c" c1)).
  assert (Ha : pa "a" "a c" ∅ = (Done (TStr "a", Some " c"), c1))
    by (vm_compute; reflexivity).
  assert (Hf : pa "b" " c" c1 = (Done Fail, c2)) by (vm_compute; reflexivity).
  assert (Hs : seq_steps pa ["a"] "a c" ∅ [TStr "a"] " c" c1)
    by exact (steps_cons pa "a" [] "a c" ∅ (TStr "a") " c" c1 [] " c" c1
                Ha (steps_nil pa " c" c1)).
  exists c1, c2. split; [exact Hs|]. split; [exact Hf|].
  exact (proj2 (proj2 (parse_sequence_in_order bare_grammar "\s*(%s)" 1
                         ["a"; "b"; "c"] "a c" ∅))
           ["a"] "b" ["c"] [TStr "a"] " c" c1 TNone c2 eq_refl Hs Hf).
Defined.

Lemma alternatives_loop_all_fail pa atom text alternatives c c' :
  alts_fail pa text alternatives c c' ->
  alternatives_loop pa atom alternatives text c = (Done Fail, c').
Proof.
  induction 1 as [c|alt rest c t c1 c' Hf _ IH]; simpl; [done|].
  unfold bind. by rewrite Hf.
Qed.

Lemma alternatives_loop_first pa atom text pre c c1 :
  alts_fail pa text pre c c1 ->
  forall alt post children rem c2,
    parse_sequence pa alt text c1 = (Done (TList children, Some rem), c2) ->
    alternatives_loop pa atom (pre ++ alt :: post) text c
    = (Done (TList (TStr atom :: children), Some rem), c2).
Proof.
  induction 1 as [c|a rest c t c1 c' Hf _ IH];
    intros alt post children rem c2 Hs; simpl; unfold bind.
  - by rewrite Hs.
  - rewrite Hf. by apply IH.
Qed.

(** C1. On a non-terminal [atom], a key of the grammar, [parse_atom] is an
    ordered choice among the alternatives in their stored order.  When the
    result for [text] is not in the cache yet, the alternatives are tried
    in order: the first on which [parse_sequence] returns a remainder
    other than [None] decides the result, its children under [atom] with
    that remainder, whatever the alternatives after it are; when every
    alternative fails the result is [Fail]; the result is stored in the
    cache.  And whatever [parse_atom] returns from a sound cache, as the
    caches of a parse are, stored or computed, is the result of the first
    alternative that succeeds, or [Fail] when none does. *)
Theorem parse_atom_ordered_choice `{Host} G tokenizer fuel atom e text c :
  G !! atom = Some e ->
  (forall pre alt post c1 t rem c2,
      c !! (atom, text) = None ->
      alternatives_of e = pre ++ alt :: post ->
      alts_fail (parse_atom G tokenizer fuel) text pre c c1 ->
      parse_sequence (parse_atom G tokenizer fuel) alt text c1
      = (Done (t, Some rem), c2) ->
      exists children,
        t = TList children /\
        parse_atom G tokenizer (S fuel) atom text c
        = (Done (TList (TStr atom :: children), Some rem),
           <[(atom, text) := (TList (TStr atom :: children), Some rem)]> c2))
  /\ (forall c1,
      c !! (atom, text) = None ->
      alts_fail (parse_atom G tokenizer fuel) text (alternatives_of e) c c1 ->
      parse_atom G tokenizer (S fuel) atom text c
      = (Done Fail, <[(atom, text) := Fail]> c1))
  /\ (forall r c',
      cache_sound G tokenizer c ->
      parse_atom G tokenizer fuel atom text c = (Done r, c') ->
      exists n, first_success G tokenizer n atom (alternatives_of e) text r).
Proof.
  intros Hg. split; [|split].
  - intros pre alt post c1 t rem c2 Hc He Hf Hs.
    destruct (sequence_loop_shape _ _ _ _ _ _ _ Hs)
      as [[=]|(children & rem' & [= -> ->])].
    exists children. split; [done|].
    simpl. unfold memo, atom_body. rewrite Hc, Hg, He.
    by rewrite (alternatives_loop_first _ atom _ _ _ _ Hf _ post _ _ _ Hs).
  - intros c1 Hc Hf. simpl. unfold memo, atom_body. rewrite Hc, Hg.
    by rewrite (alternatives_loop_all_fail _ atom _ _ _ _ Hf).
  - intros r c' Hc Hp. by eapply parse_atom_first_success.
Qed.

Lemma parse_atom_ordered_choice_witness :
  let pa := parse_atom ab_grammar "\s*(%s)" 1 in
  let qa := dq +:+ "a" +:+ dq in
  let qb := dq +:+ "b" +:+ dq in
  exists c1 c2,
    alts_fail pa qb [[qa]] ∅ c1
    /\ parse_sequence pa [qb] qb c1 = (Done (TList [TStr qb], Some ""), c2)
    /\ parse_atom ab_grammar "\s*(%s)" 2 "value" qb ∅
       = (Done (TList [TStr "value"; TStr qb], Some ""),
          <[("value", qb) := (TList [TStr "value"; TStr qb], Some "")]> c2).
Proof.
  intros pa qa qb.
  pose (c1 := snd (parse_sequence pa [qa] qb ∅)).
  pose (c2 := snd (parse_sequence pa [qb] qb c1)).
  assert (Ha : parse_sequence pa [qa] qb ∅ = (Done (TNone, None), c1))
    by (vm_compute; reflexivity).
  assert (Hs : parse_sequence pa [qb] qb c1
               = (Done (TList [TStr qb], Some ""), c2))
    by (vm_compute; reflexivity).
  assert (Hf : alts_fail pa qb [[qa]] ∅ c1)
    by exact (fail_cons pa qb [qa] [] ∅ TNone c1 c1 Ha (fail_nil pa qb c1)).
  exists c1, c2. split; [exact Hf|]. split; [exact Hs|].
  assert (Hg : ab_grammar !! "value" = Some (ERules [[qa]; [qb]]))
    by (vm_compute; reflexivity).
  destruct (proj1 (parse_atom_ordered_choice ab_grammar "\s*(%s)" 1 "value"
                     (ERules [[qa]; [qb]]) qb ∅ Hg)
              [[qa]] [qb] [] c1 _ _ c2 (lookup_empty _) eq_refl Hf Hs)
    as (children & Hc & Hp).
  injection Hc as <-. exact Hp.
Defined.

(** C9. The remainder of a successful match is what is left of the text
    once a prefix is taken off: for [parse], and for [parse_atom] and
    [parse_sequence] run from a cache whose stored remainders are of that
    kind, as those of the caches of a parse are. *)
Theorem remainder_is_suffix `{Host} G fuel text t rem :
  (forall start_symbol,
      parse fuel start_symbol text G = Done (t, Some rem) ->
      is_suffix rem text)
  /\ (forall tokenizer atom c c',
      cache_wf c ->
      parse_atom G tokenizer fuel atom text c = (Done (t, Some rem), c') ->
      is_suffix rem text /\ cache_wf c')
  /\ (forall tokenizer sequence c c',
      cache_wf c ->
      parse_sequence (parse_atom G tokenizer fuel) sequence text c
      = (Done (t, Some rem), c') ->
      is_suffix rem text /\ cache_wf c').
Proof.
  assert (Hatom : forall tokenizer atom c c',
    cache_wf c ->
    parse_atom G tokenizer fuel atom text c = (Done (t, Some rem), c') ->
    is_suffix rem text /\ cache_wf c').
  { intros tokenizer atom c c' Hc Hp.
    destruct (parse_atom_wf G tokenizer fuel _ _ _ _ _ Hc Hp) as [Hc' Hr].
    split; [|done]. exact (Hr _ eq_refl). }
  split; [|split; [exact Hatom|]].
  - intros start_symbol. unfold parse.
    destruct (tokenizer_of G) as [tokenizer|e|]; simpl; try done.
    destruct (parse_atom G tokenizer fuel start_symbol text ∅) as [o c'] eqn:E.
    simpl. intros ->. eapply Hatom; [|exact E].
    intros a t' r. by rewrite lookup_empty.
  - intros tokenizer sequence c c' Hc Hp.
    destruct (sequence_loop_wf _ (parse_atom_wf G tokenizer fuel)
                _ _ _ _ _ _ Hc Hp) as [Hc' Hr].
    split; [|done]. exact (Hr _ eq_refl).
Qed.

Lemma remainder_is_suffix_witness :
  parse 2 "value" (dq +:+ "a" +:+ dq +:+ " rest") ab_grammar
  = Done (TList [TStr "value"; TStr (dq +:+ "a" +:+ dq)], Some " rest")
  /\ is_suffix " rest" (dq +:+ "a" +:+ dq +:+ " rest").
Proof.
  assert (Hp : parse 2 "value" (dq +:+ "a" +:+ dq +:+ " rest") ab_grammar
    = Done (TList [TStr "value"; TStr (dq +:+ "a" +:+ dq)], Some " rest"))
    by (vm_compute; reflexivity).
  split; [exact Hp|].
  exact (proj1 (remainder_is_suffix ab_grammar 2 _ _ _) "value" Hp).
Defined.

Section Exceptions.
Context `{Host}.
Variable G : gmap string entry.
Variable tokenizer : string.

Lemma atom_body_raises pa :
  raises_only (from_terminal G tokenizer) pa ->
  raises_only (from_terminal G tokenizer) (atom_body G tokenizer pa).
Proof.
  intros Hpa atom text c e c'. unfold atom_body.
  destruct (G !! atom) as [en|] eqn:Eg.
  - by apply alternatives_loop_raises.
  - unfold lift. intros [= He <-]. by exists atom, text.
Qed.

Lemma parse_atom_raises fuel :
  raises_only (from_terminal G tokenizer) (parse_atom G tokenizer fuel).
Proof.
  induction fuel as [|fuel IH]; simpl.
  - by intros atom text c e c'.
  - by apply memo_raises, atom_body_raises.
Qed.
End Exceptions.

Section Failure.
Context `{Host}.
Implicit Types (pa : string -> string -> M parse_result) (c : cache).

(** A terminal gives [Fail] exactly when [re.match] returns [None]. *)
Lemma match_terminal_fail tokenizer atom text :
  match_terminal tokenizer atom text = Done Fail
  <-> exists pattern,
        format tokenizer atom = Done pattern
        /\ re_match pattern text = Done None.
Proof.
  unfold match_terminal. split.
  - destruct (format tokenizer atom) as [p|e|]; cbn [obind]; try done.
    destruct (re_match p text) as [[m|]|e|] eqn:Em; cbn [obind]; try done.
    + by destruct (group m 1) as [g|e|].
    + intros _. by exists p.
  - intros (p & -> & Hm). cbn [obind]. by rewrite Hm.
Qed.

(** When the loop of [parse_sequence] returns a remainder [None], an atom
    returned it, the atoms before having succeeded. *)
Lemma sequence_loop_fail_inv pa sequence : forall acc text c t c',
  sequence_loop pa sequence acc text c = (Done (t, None), c') ->
  exists pre atom post ts text1 c1 t1,
    sequence = pre ++ atom :: post
    /\ seq_steps pa pre text c ts text1 c1
    /\ pa atom text1 c1 = (Done (t1, None), c').
Proof.
  induction sequence as [|atom sequence IH]; intros acc text c t c'; simpl;
    [done|].
  unfold bind.
  destruct (pa atom text c) as [[[t1 [text'|]]|e|] c1] eqn:E; try done.
  - intros Hl.
    destruct (IH _ _ _ _ _ Hl)
      as (pre & a & post & ts & text1 & c2 & t2 & -> & Hs & Ha).
    exists (atom :: pre), a, post, (t1 :: ts), text1, c2, t2.
    split; [done|]. split; [|done]. by econstructor.
  - intros [= <- <-]. exists [], atom, sequence, [], text, c, t1.
    split; [done|]. split; [constructor|done].
Qed.

(** When the loop over the alternatives returns [Fail], every alternative
    failed. *)
Lemma alternatives_loop_fail_inv pa atom alternatives : forall text c t c',
  alternatives_loop pa atom alternatives text c = (Done (t, None), c') ->
  alts_fail pa text alternatives c c'.
Proof.
  induction alternatives as [|alt rest IH]; intros text c t c'; simpl.
  - intros [= <- <-]. constructor.
  - unfold bind.
    destruct (parse_sequence pa alt text c) as [[[t1 [rem|]]|e|] c1] eqn:E;
      try done.
    + unfold lift, ret. by destruct (cons_atom atom t1).
    + intros Hl. econstructor; [exact E|]. by eapply IH.
Qed.

Lemma memo_fail f atom text c c' :
  c !! (atom, text) = None ->
  memo f atom text c = (Done Fail, c')
  <-> exists c1, f atom text c = (Done Fail, c1)
                 /\ c' = <[(atom, text) := Fail]> c1.
Proof.
  intros Hc. unfold memo. rewrite Hc.
  destruct (f atom text c) as [[r|e|] c1]; split.
  - intros [= -> <-]. by exists c1.
  - by intros (c2 & [= -> <-] & ->).
  - done.
  - by intros (c2 & [=] & _).
  - done.
  - by intros (c2 & [=] & _).
Qed.

(** [parse_atom] on a symbol whose result is not stored yet returns [Fail]
    exactly when every alternative fails. *)
Lemma parse_atom_fail_symbol G tokenizer fuel atom e text c c' :
  G !! atom = Some e ->
  c !! (atom, text) = None ->
  parse_atom G tokenizer (S fuel) atom text c = (Done Fail, c')
  <-> exists c1,
        alts_fail (parse_atom G tokenizer fuel) text (alternatives_of e) c c1
        /\ c' = <[(atom, text) := Fail]> c1.
Proof.
  intros Hg Hc. simpl. rewrite (memo_fail _ _ _ _ _ Hc).
  unfold atom_body. rewrite Hg. split; intros (c1 & Hl & ->); exists c1.
  - split; [|done]. by eapply alternatives_loop_fail_inv.
  - split; [|done]. by apply alternatives_loop_all_fail.
Qed.

(** [parse_atom] on a terminal whose result is not stored yet returns
    [Fail] exactly when the terminal does not match. *)
Lemma parse_atom_fail_terminal G tokenizer fuel atom text c c' :
  G !! atom = None ->
  c !! (atom, text) = None ->
  parse_atom G tokenizer (S fuel) atom text c = (Done Fail, c')
  <-> match_terminal tokenizer atom text = Done Fail
      /\ c' = <[(atom, text) := Fail]> c.
Proof.
  intros Hg Hc. simpl. rewrite (memo_fail _ _ _ _ _ Hc).
  unfold atom_body, lift. rewrite Hg. split.
  - by intros (c1 & [= -> <-] & ->).
  - intros [-> ->]. by exists c.
Qed.
End Failure.

(** C4. [Fail], the pair [(None, None)], is a value, returned exactly when
    the match fails, and never an exception.  What [parse] returns is
    [Fail] or has a string as remainder: the remainder is [None] only in
    [Fail].  A terminal gives [Fail] exactly when [re.match] returns
    [None].  [parse_sequence] returns [Fail] exactly when, the atoms before
    it having succeeded in turn, an atom returns the remainder [None].
    [parse_atom], on a symbol of the grammar whose result is not stored yet,
    returns [Fail] exactly when every alternative fails, and on a terminal
    exactly when the terminal does not match; so does [parse], which starts
    from an empty cache.  An exception leaves [parse] only when it was
    raised by [grammar[' '] + '(%s)'] or by the library calls of the
    terminal branch: the formatting of the pattern, [re.match] or
    [m.group(1)]. *)
Theorem fail_is_a_value `{Host} G tokenizer fuel :
  (forall start_symbol text r,
      parse fuel start_symbol text G = Done r ->
      r = Fail \/ exists t rem, r = (t, Some rem))
  /\ (forall atom text,
      match_terminal tokenizer atom text = Done Fail
      <-> exists pattern,
            format tokenizer atom = Done pattern
            /\ re_match pattern text = Done None)
  /\ (forall sequence text c c',
      parse_sequence (parse_atom G tokenizer fuel) sequence text c
      = (Done Fail, c')
      <-> exists pre atom post ts text1 c1 t,
            sequence = pre ++ atom :: post
            /\ seq_steps (parse_atom G tokenizer fuel) pre text c ts text1 c1
            /\ parse_atom G tokenizer fuel atom text1 c1
               = (Done (t, None), c'))
  /\ (forall atom e text c c',
      G !! atom = Some e ->
      c !! (atom, text) = None ->
      parse_atom G tokenizer (S fuel) atom text c = (Done Fail, c')
      <-> exists c1,
            alts_fail (parse_atom G tokenizer fuel) text (alternatives_of e)
              c c1
            /\ c' = <[(atom, text) := Fail]> c1)
  /\ (forall atom text c c',
      G !! atom = None ->
      c !! (atom, text) = None ->
      parse_atom G tokenizer (S fuel) atom text c = (Done Fail, c')
      <-> match_terminal tokenizer atom text = Done Fail
          /\ c' = <[(atom, text) := Fail]> c)
  /\ (forall start_symbol e text,
      tokenizer_of G = Done tokenizer ->
      G !! start_symbol = Some e ->
      parse (S fuel) start_symbol text G = Done Fail
      <-> exists c1,
            alts_fail (parse_atom G tokenizer fuel) text (alternatives_of e)
              ∅ c1)
  /\ (forall start_symbol text,
      tokenizer_of G = Done tokenizer ->
      G !! start_symbol = None ->
      parse (S fuel) start_symbol text G = Done Fail
      <-> match_terminal tokenizer start_symbol text = Done Fail)
  /\ (forall start_symbol text e,
      parse fuel start_symbol text G = Raise e ->
      tokenizer_of G = Raise e \/
      exists tokenizer',
        tokenizer_of G = Done tokenizer' /\ from_terminal G tokenizer' e).
Proof.
  split; [|split; [|split; [|split; [|split; [|split; [|split]]]]]].
  - intros start_symbol text r. unfold parse.
    destruct (tokenizer_of G) as [tokenizer'|e|]; simpl; try done.
    destruct (parse_atom G tokenizer' fuel start_symbol text ∅) as [o c'] eqn:E.
    simpl. intros ->.
    destruct (parse_atom_wf G tokenizer' fuel _ _ _ _ _
                (fun a t r => ltac:(by rewrite lookup_empty)) E) as [_ Hr].
    specialize (Hr _ eq_refl). destruct r as [t [rem|]]; simpl in Hr.
    + right. eauto.
    + left. by subst t.
  - intros atom text. apply match_terminal_fail.
  - intros sequence text c c'. split.
    + intros Hl. by eapply sequence_loop_fail_inv.
    + intros (pre & atom & post & ts & text1 & c1 & t & -> & Hs & Hf).
      unfold parse_sequence. by eapply sequence_loop_fails.
  - intros atom e text c c'. apply parse_atom_fail_symbol.
  - intros atom text c c'. apply parse_atom_fail_terminal.
  - intros start_symbol e text Ht Hg. unfold parse. rewrite Ht. cbn [obind].
    destruct (parse_atom G tokenizer (S fuel) start_symbol text ∅)
      as [o c'] eqn:E.
    cbn [fst]. split.
    + intros ->.
      apply (parse_atom_fail_symbol _ _ _ _ _ _ _ _ Hg (lookup_empty _)) in E
        as (c1 & Hf & _).
      by exists c1.
    + intros (c1 & Hf).
      assert (E' : parse_atom G tokenizer (S fuel) start_symbol text ∅
                   = (Done Fail, <[(start_symbol, text) := Fail]> c1)).
      { apply (parse_atom_fail_symbol _ _ _ _ _ _ _ _ Hg (lookup_empty _)).
        by exists c1. }
      rewrite E' in E. by injection E as <- _.
  - intros start_symbol text Ht Hg. unfold parse. rewrite Ht. cbn [obind].
    destruct (parse_atom G tokenizer (S fuel) start_symbol text ∅)
      as [o c'] eqn:E.
    cbn [fst]. split.
    + intros ->.
      by apply (parse_atom_fail_terminal _ _ _ _ _ _ _ Hg (lookup_empty _))
        in E as [Hm _].
    + intros Hm.
      assert (E' : parse_atom G tokenizer (S fuel) start_symbol text ∅
                   = (Done Fail, <[(start_symbol, text) := Fail]> ∅)).
      { by apply (parse_atom_fail_terminal _ _ _ _ _ _ _ Hg (lookup_empty _)). }
      rewrite E' in E. by injection E as <- _.
  - intros start_symbol text e. unfold parse.
    destruct (tokenizer_of G) as [tokenizer'|e'|]; simpl; try done.
    + destruct (parse_atom G tokenizer' fuel start_symbol text ∅)
        as [o c'] eqn:E.
      simpl. intros ->. right. exists tokenizer'. split; [done|].
      by eapply parse_atom_raises.
    + intros [= ->]. by left.
Qed.

Lemma fail_is_a_value_witness :
  let pa := parse_atom ab_grammar "\s*(%s)" 1 in
  exists c1,
    alts_fail pa "c" [[quoted "a"]; [quoted "b"]] ∅ c1
    /\ parse 2 "value" "c" ab_grammar = Done Fail.
Proof.
  intros pa.
  pose (c1 := snd (parse_sequence pa [quoted "a"] "c" ∅)).
  pose (c2 := snd (parse_sequence pa [quoted "b"] "c" c1)).
  assert (Ha : parse_sequence pa [quoted "a"] "c" ∅ = (Done (TNone, None), c1))
    by (vm_compute; reflexivity).
  assert (Hb : parse_sequence pa [quoted "b"] "c" c1 = (Done (TNone, None), c2))
    by (vm_compute; reflexivity).
  assert (Hf : alts_fail pa "c" [[quoted "a"]; [quoted "b"]] ∅ c2)
    by exact (fail_cons pa "c" [quoted "a"] [[quoted "b"]] ∅ TNone c1 c2 Ha
                (fail_cons pa "c" [quoted "b"] [] c1 TNone c2 c2 Hb
                   (fail_nil pa "c" c2))).
  assert (Ht : tokenizer_of ab_grammar = Done "\s*(%s)")
    by (vm_compute; reflexivity).
  assert (Hg : ab_grammar !! "value"
               = Some (ERules [[quoted "a"]; [quoted "b"]]))
    by (vm_compute; reflexivity).
  exists c2. split; [exact Hf|].
  destruct (fail_is_a_value ab_grammar "\s*(%s)" 1)
    as (_ & _ & _ & _ & _ & Hparse & _).
  exact (proj2 (Hparse "value" _ "c" Ht Hg) (ex_intro _ c2 Hf)).
Defined.

(** C8. The decorator changes no result.  Whatever [parse] returns or
    raises without [memo] within some depth of recursion, it returns or
    raises with [memo] within the same depth; and whatever it returns or
    raises with [memo], it returns or raises without, the depth being
    possibly larger, since the cache spares the recursion of a second
    visit. *)
Theorem memo_changes_no_result `{Host} G start_symbol text o :
  o <> Diverge ->
  (forall fuel,
      parse_nomemo fuel start_symbol text G = o ->
      parse fuel start_symbol text G = o)
  /\ (forall fuel,
      parse fuel start_symbol text G = o ->
      exists fuel', parse_nomemo fuel' start_symbol text G = o).
Proof.
  intros Ho. unfold parse, parse_nomemo.
  destruct (tokenizer_of G) as [tokenizer|e|]; simpl; [|by eauto..].
  split; intros fuel Hp.
  - destruct (parse_atom_complete G tokenizer fuel start_symbol text ∅ o
                (cache_sound_empty G tokenizer) Hp Ho) as [c' ->].
    done.
  - destruct (parse_atom G tokenizer fuel start_symbol text ∅) as [o' c'] eqn:E.
    simpl in Hp. subst o'.
    destruct (parse_atom_sound G tokenizer fuel _ _ _ _ _
                (cache_sound_empty G tokenizer) E) as [_ Hr].
    destruct (Hr Ho) as [_ [fuel' Hf]]. by exists fuel'.
Qed.

Lemma memo_changes_no_result_witness :
  parse_nomemo 2 "value" (dq +:+ "b" +:+ dq) ab_grammar
  = Done (TList [TStr "value"; TStr (dq +:+ "b" +:+ dq)], Some "")
  /\ parse 2 "value" (dq +:+ "b" +:+ dq) ab_grammar
     = Done (TList [TStr "value"; TStr (dq +:+ "b" +:+ dq)], Some "").
Proof.
  assert (Hn : parse_nomemo 2 "value" (dq +:+ "b" +:+ dq) ab_grammar
    = Done (TList [TStr "value"; TStr (dq +:+ "b" +:+ dq)], Some ""))
    by (vm_compute; reflexivity).
  split; [exact Hn|].
  assert (Ho : Done (TList [TStr "value"; TStr (dq +:+ "b" +:+ dq)], Some "")
               <> Diverge) by discriminate.
  exact (proj1 (memo_changes_no_result ab_grammar "value" _ _ Ho) 2 Hn).
Defined.

(** * The claims on the compiler *)

(** C10. No rule is stored under the reserved key [' ']: the pieces that
    [split] returns are stripped, so none of them is the one-space string;
    a step of the loop of [grammar] leaves the entry of the reserved key as
    it was; and the grammar that [grammar] returns has the whitespace
    pattern under that key. *)
Theorem reserved_key_is_safe description whitespace :
  (forall text sep maxsplit pieces,
      split text sep maxsplit = Done pieces -> ws_key ∉ pieces)
  /\ (forall G line G',
      add_rule G line = Done G' -> G' !! ws_key = G !! ws_key)
  /\ (forall G,
      grammar description whitespace = Done G ->
      G !! ws_key = Some (EWs whitespace)).
Proof.
  split; [|split].
  - apply split_not_ws_key.
  - intros G line G'. rewrite add_rule_rule_of.
    destruct (rule_of line) as [[lhs rules]|e|] eqn:E; cbn [obind]; try done.
    intros [= <-]. apply lookup_insert_ne. by apply (rule_of_lhs _ _ _ E).
  - intros G. rewrite grammar_rules.
    destruct (rule_lines description) as [lines|e|]; cbn [obind]; try done.
    destruct (omap rule_of lines) as [rules|e|] eqn:E; cbn [obind]; try done.
    intros [= <-].
    rewrite foldl_insert_rule_other by (by eapply omap_rule_of_lhs).
    apply lookup_singleton_eq.
Qed.

Lemma reserved_key_is_safe_witness :
  grammar ab_description "\s*" = Done ab_grammar
  /\ ab_grammar !! ws_key = Some (EWs "\s*").
Proof.
  assert (Hg : grammar ab_description "\s*" = Done ab_grammar)
    by (vm_compute; reflexivity).
  split; [exact Hg|].
  exact (proj2 (proj2 (reserved_key_is_safe ab_description "\s*")) _ Hg).
Defined.

Lemma grammar_lookup description whitespace G :
  grammar description whitespace = Done G ->
  exists lines rules,
    rule_lines description = Done lines
    /\ omap rule_of lines = Done rules
    /\ (forall lhs alternatives,
          G !! lhs = Some (ERules alternatives)
          <-> last_rule rules lhs alternatives)
    /\ (forall key,
          key <> ws_key -> key ∉ map fst rules -> G !! key = None).
Proof.
  intros Hg. rewrite grammar_rules in Hg.
  destruct (rule_lines description) as [lines|e|]; cbn [obind] in Hg; try done.
  destruct (omap rule_of lines) as [rules|e|] eqn:E; cbn [obind] in Hg;
    try done.
  injection Hg as <-. exists lines, rules. repeat split; try done.
  - intros Hl. destruct (decide (lhs ∈ map fst rules)) as [Hin|Hout].
    + destruct (last_rule_exists _ _ Hin) as [alts Hlast].
      rewrite (foldl_insert_rule_last _ _ _ _ Hlast) in Hl.
      by injection Hl as <-.
    + rewrite foldl_insert_rule_other in Hl by done.
      destruct (decide (lhs = ws_key)) as [->|Hne].
      * by rewrite lookup_singleton_eq in Hl.
      * by rewrite lookup_singleton_ne in Hl.
  - apply foldl_insert_rule_last.
  - intros key Hne Hout. rewrite foldl_insert_rule_other by done.
    by apply lookup_singleton_ne.
Qed.

(** The rule lines, written out: the text between the newlines of the
    stripped description, tabs replaced by spaces, the empty pieces dropped
    and the others stripped.  A piece of only whitespace is not empty: it is
    kept, and is the rule line [''] once stripped. *)
Lemma rule_lines_eq description :
  rule_lines description
  = Done (map PyStr.strip
            (filter (fun t => t <> "")
               (PyStr.split_on nl 0 None
                  (PyStr.strip
                     (PyStr.replace PyStr.tab PyStr.space description))))).
Proof. reflexivity. Qed.





(** C7, amended. When a rule line of the description has no [' => '],
    [grammar] returns no grammar: it raises the [ValueError] of the
    unpacking [lhs, rhs = ...], whose message tells how many values there
    were and nothing of the line.  The rule lines are the pieces between
    the newlines of the stripped description, tabs replaced by spaces, the
    empty pieces dropped and the others stripped.  A line with an empty
    right-hand side has no [' => '] once it is stripped; neither has the
    rule line [''], which a line of only whitespace between two others
    gives. *)
Theorem grammar_rejects_line_without_arrow description whitespace lines :
  rule_lines description = Done lines ->
  lines = map PyStr.strip
            (filter (fun t => t <> "")
               (PyStr.split_on nl 0 None
                  (PyStr.strip
                     (PyStr.replace PyStr.tab PyStr.space description))))
  /\ (forall line,
      line ∈ lines ->
      PyStr.contains " => " line = false ->
      exists got,
        grammar description whitespace = Raise (UnpackError 2 got)
        /\ (exn_message (UnpackError 2 got)
              = "need more than 0 values to unpack"
            \/ exn_message (UnpackError 2 got)
              = "need more than 1 value to unpack")).
Proof.
  intros Hl. split.
  { rewrite rule_lines_eq in Hl. by injection Hl as <-. }
  intros line Hin Hc. rewrite grammar_rules, Hl. cbn [obind].
  destruct (omap_rule_of_raises lines line Hin (rule_of_no_arrow line Hc))
    as (got & Hg & ->).
  exists got. split; [done|].
  destruct got as [|[|got]]; [by left|by right|lia].
Qed.

Lemma grammar_rejects_line_without_arrow_witness :
  (rule_lines ("a => x" +:+ nl +:+ "b => ") = Done ["a => x"; "b =>"]
   /\ PyStr.contains " => " "b =>" = false
   /\ grammar ("a => x" +:+ nl +:+ "b => ") "\s*" = Raise (UnpackError 2 1))
  /\ (rule_lines ("a => x" +:+ nl +:+ " " +:+ nl +:+ "b => y")
      = Done ["a => x"; ""; "b => y"]
      /\ PyStr.contains " => " "" = false
      /\ grammar ("a => x" +:+ nl +:+ " " +:+ nl +:+ "b => y") "\s*"
         = Raise (UnpackError 2 0)).
Proof.
  assert (Hl : rule_lines ("a => x" +:+ nl +:+ "b => ")
               = Done ["a => x"; "b =>"]) by (vm_compute; reflexivity).
  assert (Hc : PyStr.contains " => " "b =>" = false) by (vm_compute; reflexivity).
  assert (Hl' : rule_lines ("a => x" +:+ nl +:+ " " +:+ nl +:+ "b => y")
                = Done ["a => x"; ""; "b => y"]) by (vm_compute; reflexivity).
  assert (Hc' : PyStr.contains " => " "" = false) by (vm_compute; reflexivity).
  split.
  - split; [exact Hl|]. split; [exact Hc|].
    destruct (proj2 (grammar_rejects_line_without_arrow _ "\s*" _ Hl) "b =>"
                (list_elem_of_further _ _ _ (list_elem_of_here _ _)) Hc)
      as (got & Hg & _).
    rewrite Hg. vm_compute in Hg. by injection Hg as <-.
  - split; [exact Hl'|]. split; [exact Hc'|].
    destruct (proj2 (grammar_rejects_line_without_arrow _ "\s*" _ Hl') ""
                (list_elem_of_further _ _ _ (list_elem_of_here _ _)) Hc')
      as (got & Hg & _).
    rewrite Hg. vm_compute in Hg. by injection Hg as <-.
Defined.

(** C7 as stated fails: the error does not report the line.  Two
    descriptions with different lines raise the same exception, and its
    message does not hold the line. *)
Lemma grammar_error_reports_line_counterexample :
  grammar "foo" "\s*" = Raise (UnpackError 2 1)
  /\ grammar "bar" "\s*" = Raise (UnpackError 2 1)
  /\ PyStr.contains "foo" (exn_message (UnpackError 2 1)) = false.
Proof. repeat split; vm_compute; reflexivity. Qed.

(** * The scenarios *)

Lemma parse_mono `{Host} G start_symbol text n m o :
  parse n start_symbol text G = o -> o <> Diverge -> n <= m ->
  parse m start_symbol text G = o.
Proof.
  unfold parse. destruct (tokenizer_of G) as [tokenizer|e|]; simpl; try done.
  destruct (parse_atom G tokenizer n start_symbol text ∅) as [o' c'] eqn:E.
  simpl. intros -> Ho Hm.
  by rewrite (parse_atom_mono G tokenizer n m Hm _ _ _ _ _ E Ho).
Qed.

(** C6, amended. The atoms of the grammar compiled from
    [value => "a" | "b"] are the patterns ["a"] and ["b"], quotes included.
    On the text ["a"], with its quotes, [parse] returns the tree
    [["value", "\"a\""]] and the remainder [""]; on the text [a] without
    quotes, and on [c], it returns [(None, None)]. *)
Theorem ab_grammar_scenarios fuel :
  grammar ab_description "\s*" = Done ab_grammar
  /\ parse (2 + fuel) "value" (dq +:+ "a" +:+ dq) ab_grammar
     = Done (TList [TStr "value"; TStr (dq +:+ "a" +:+ dq)], Some "")
  /\ parse (2 + fuel) "value" "a" ab_grammar = Done Fail
  /\ parse (2 + fuel) "value" "c" ab_grammar = Done Fail.
Proof.
  split; [vm_compute; reflexivity|].
  repeat split; (eapply (parse_mono _ _ _ 2);
                 [vm_compute; reflexivity|discriminate|lia]).
Qed.

(** C6 as stated fails: on the text [a] the parse does not return the tree
    [["value", "a"]], whatever the depth allowed to the recursion. *)
Lemma ab_grammar_unquoted_counterexample :
  grammar ab_description "\s*" = Done ab_grammar
  /\ forall fuel,
       parse fuel "value" "a" ab_grammar
       <> Done (TList [TStr "value"; TStr "a"], Some "").
Proof.
  split; [vm_compute; reflexivity|].
  intros fuel Hp.
  assert (H2 : parse 2 "value" "a" ab_grammar = Done Fail)
    by (vm_compute; reflexivity).
  apply (parse_mono _ _ _ _ (fuel `max` 2)) in Hp; [|discriminate|lia].
  apply (parse_mono _ _ _ _ (fuel `max` 2)) in H2; [|discriminate|lia].
  rewrite Hp in H2. discriminate H2.
Qed.

(** C3, the code at the failing input.  The whitespace pattern [(\s)*] has
    a group, so the group [1] that [parse_atom] returns is the group of the
    whitespace and not the one wrapped around the atom: on the text [ a]
    the terminal [a] gives the tree [" "], the whitespace itself.  Under
    the default pattern [\s*] the same parse gives ["a"]. *)
Theorem whitespace_group_is_captured fuel :
  grammar "v => a" "(\s)*" = Done grouped_ws_grammar
  /\ tokenizer_of grouped_ws_grammar = Done "(\s)*(%s)"
  /\ format "(\s)*(%s)" "a" = Done "(\s)*(a)"
  /\ re_match "(\s)*(a)" " a" = Done (Some (MatchObj [Some " "; Some "a"] 2))
  /\ parse (2 + fuel) "v" " a" grouped_ws_grammar
     = Done (TList [TStr "v"; TStr " "], Some "")
  /\ parse (2 + fuel) "v" " a" plain_ws_grammar
     = Done (TList [TStr "v"; TStr "a"], Some "").
Proof.
  do 4 (split; [vm_compute; reflexivity|]).
  split; (eapply (parse_mono _ _ _ 2);
          [vm_compute; reflexivity|discriminate|lia]).
Qed.

(** The assertions of [test] hold: on each text [json_parse] returns the
    tree expected and the remainder ['']. *)
Lemma test_passes :
  Forall (fun '(text, t) => json_parse 40 text = Done (t, Some "")) test_cases.
Proof. repeat constructor; vm_compute; reflexivity. Qed.

(** * Further properties of the matcher *)

Section CacheGrowth.
Implicit Types (pa : string -> string -> M parse_result) (c : cache).

Lemma sequence_loop_grows pa :
  (forall atom text c o c', pa atom text c = (o, c') -> c ⊆ c') ->
  forall sequence acc text c o c',
    sequence_loop pa sequence acc text c = (o, c') -> c ⊆ c'.
Proof.
  intros Hpa. induction sequence as [|atom sequence IH];
    intros acc text c o c'; simpl.
  - by intros [= <- <-].
  - unfold bind. destruct (pa atom text c) as [o1 c1] eqn:E.
    pose proof (Hpa _ _ _ _ _ E) as Hc1.
    destruct o1 as [[t1 [text'|]]|e|].
    + intros Hl. etrans; [exact Hc1|]. by eapply IH.
    + by intros [= <- <-].
    + by intros [= <- <-].
    + by intros [= <- <-].
Qed.

Lemma alternatives_loop_grows pa :
  (forall atom text c o c', pa atom text c = (o, c') -> c ⊆ c') ->
  forall atom alternatives text c o c',
    alternatives_loop pa atom alternatives text c = (o, c') -> c ⊆ c'.
Proof.
  intros Hpa atom. induction alternatives as [|alt rest IH];
    intros text c o c'; simpl.
  - by intros [= <- <-].
  - unfold bind, parse_sequence.
    destruct (sequence_loop pa alt [] text c) as [o1 c1] eqn:E.
    pose proof (sequence_loop_grows pa Hpa _ _ _ _ _ _ E) as Hc1.
    destruct o1 as [[t1 [rem|]]|e|].
    + unfold lift, ret. by destruct (cons_atom atom t1); intros [= <- <-].
    + intros Hl. etrans; [exact Hc1|]. by eapply IH.
    + by intros [= <- <-].
    + by intros [= <- <-].
Qed.

Lemma memo_grows f :
  (forall atom text c o c', f atom text c = (o, c') -> c ⊆ c') ->
  forall atom text c o c', memo f atom text c = (o, c') -> c ⊆ c'.
Proof.
  intros Hf atom text c o c'. unfold memo.
  destruct (c !! (atom, text)) as [r|] eqn:El; [by intros [= <- <-]|].
  destruct (f atom text c) as [o1 c1] eqn:E.
  pose proof (Hf _ _ _ _ _ E) as Hc1.
  destruct o1 as [r|e|]; intros [= <- <-]; try done.
  by apply insert_subseteq_r.
Qed.
End CacheGrowth.

(** X1. The cache only grows: a call of [parse_atom] or of [parse_sequence],
    whether it returns, raises or runs out of depth, leaves every entry
    that was in the cache in it, with the same result. *)
Theorem cache_only_grows `{Host} G tokenizer fuel :
  (forall atom text c o c',
      parse_atom G tokenizer fuel atom text c = (o, c') -> c ⊆ c')
  /\ (forall sequence text c o c',
      parse_sequence (parse_atom G tokenizer fuel) sequence text c = (o, c') ->
      c ⊆ c').
Proof.
  assert (Ha : forall n atom text c o c',
    parse_atom G tokenizer n atom text c = (o, c') -> c ⊆ c').
  { induction n as [|n IH]; simpl.
    - by intros atom text c o c' [= <- <-].
    - apply memo_grows. intros atom text c o c'. unfold atom_body.
      destruct (G !! atom); [|by intros [= <- <-]].
      by apply alternatives_loop_grows. }
  split; [apply Ha|].
  intros sequence text c o c'. apply sequence_loop_grows, Ha.
Qed.

(** X2. A result is computed once: when [parse_atom] returns a result, that
    result is in the cache under [(atom, text)], and the same call made
    again from that cache returns the same result and leaves the cache as
    it is, whatever depth it is allowed. *)
Theorem parse_atom_second_call `{Host} G tokenizer fuel fuel' atom text c r c' :
  parse_atom G tokenizer fuel atom text c = (Done r, c') ->
  c' !! (atom, text) = Some r
  /\ parse_atom G tokenizer (S fuel') atom text c' = (Done r, c').
Proof.
  intros Hp.
  assert (Hl : c' !! (atom, text) = Some r).
  { destruct fuel as [|fuel]; [done|]. simpl in Hp. unfold memo in Hp.
    destruct (c !! (atom, text)) as [r0|] eqn:El.
    - by injection Hp as <- <-.
    - destruct (atom_body G tokenizer _ atom text c) as [[r1|e|] c1];
        try done.
      injection Hp as <- <-. apply lookup_insert_eq. }
  split; [done|]. simpl. unfold memo. by rewrite Hl.
Qed.

Lemma left_recursion_atom `{Host} G tokenizer atom e rest alternatives text :
  G !! atom = Some e ->
  alternatives_of e = (atom :: rest) :: alternatives ->
  forall fuel c,
    c !! (atom, text) = None ->
    fst (parse_atom G tokenizer fuel atom text c) = Diverge.
Proof.
  intros Hg He. induction fuel as [|fuel IH]; intros c Hc; [done|].
  simpl. unfold memo, atom_body. rewrite Hc, Hg, He. simpl.
  unfold bind, parse_sequence. simpl. unfold bind.
  specialize (IH c Hc).
  destruct (parse_atom G tokenizer fuel atom text c) as [o c1].
  simpl in IH. by subst o.
Qed.

(** X3. Left recursion never returns.  When the first alternative of a
    rule begins with the symbol of the rule itself, [parse] on that symbol
    runs out of depth however much it is allowed: it neither returns nor
    raises one of the modelled exceptions. *)
Theorem left_recursion_diverges `{Host} G tokenizer atom e rest alternatives :
  tokenizer_of G = Done tokenizer ->
  G !! atom = Some e ->
  alternatives_of e = (atom :: rest) :: alternatives ->
  forall fuel text, parse fuel atom text G = Diverge.
Proof.
  intros Ht Hg He fuel text. unfold parse. rewrite Ht. simpl.
  by eapply left_recursion_atom.
Qed.

Lemma cache_only_grows_witness :
  let pa := parse_atom bare_grammar "\s*(%s)" 1 in
  exists c1 c2,
    pa "a" "a c" ∅ = (Done (TStr "a", Some " c"), c1)
    /\ pa "b" " c" c1 = (Done Fail, c2)
    /\ c1 ⊆ c2.
Proof.
  intros pa.
  pose (c1 := snd (pa "a" "a c" ∅)).
  pose (c2 := snd (pa "b" " c" c1)).
  assert (Ha : pa "a" "a c" ∅ = (Done (TStr "a", Some " c"), c1))
    by (vm_compute; reflexivity).
  assert (Hb : pa "b" " c" c1 = (Done Fail, c2)) by (vm_compute; reflexivity).
  exists c1, c2. split; [exact Ha|]. split; [exact Hb|].
  exact (proj1 (cache_only_grows bare_grammar "\s*(%s)" 1) _ _ _ _ _ Hb).
Defined.

Lemma parse_atom_second_call_witness :
  let qb := quoted "b" in
  let r := (TList [TStr "value"; TStr qb], Some "") in
  exists c',
    parse_atom ab_grammar "\s*(%s)" 2 "value" qb ∅ = (Done r, c')
    /\ c' !! ("value", qb) = Some r
    /\ parse_atom ab_grammar "\s*(%s)" 1 "value" qb c' = (Done r, c').
Proof.
  intros qb r.
  pose (c' := snd (parse_atom ab_grammar "\s*(%s)" 2 "value" qb ∅)).
  assert (Hp : parse_atom ab_grammar "\s*(%s)" 2 "value" qb ∅ = (Done r, c'))
    by (vm_compute; reflexivity).
  exists c'. split; [exact Hp|].
  exact (parse_atom_second_call ab_grammar "\s*(%s)" 2 0 "value" qb ∅ r c' Hp).
Defined.

Lemma left_recursion_diverges_witness :
  grammar "E => E op T | T" "\s*" = Done left_recursive_grammar
  /\ parse 7 "E" "1 + 2" left_recursive_grammar = Diverge.
Proof.
  split; [vm_compute; reflexivity|].
  assert (Ht : tokenizer_of left_recursive_grammar = Done "\s*(%s)")
    by (vm_compute; reflexivity).
  assert (Hg : left_recursive_grammar !! "E"
               = Some (ERules [["E"; "op"; "T"]; ["T"]]))
    by (vm_compute; reflexivity).
  exact (left_recursion_diverges left_recursive_grammar "\s*(%s)" "E" _
           ["op"; "T"] [["T"]] Ht Hg eq_refl 7 "1 + 2").
Defined.

Lemma eval_sequence_length `{Host} G tokenizer n sequence text children rem :
  eval_sequence G tokenizer n sequence text = Done (TList children, Some rem) ->
  length children = length sequence.
Proof.
  unfold eval_sequence, parse_sequence.
  destruct (sequence_loop _ sequence [] text ∅) as [o c] eqn:E. simpl.
  intros ->. destruct (sequence_loop_inv _ _ _ _ _ _ _ _ E) as (ts & [= ->] & Hs).
  by eapply seq_steps_length.
Qed.

Lemma parse_first_success `{Host} G fuel start_symbol e text r :
  G !! start_symbol = Some e ->
  parse fuel start_symbol text G = Done r ->
  exists tokenizer n,
    first_success G tokenizer n start_symbol (alternatives_of e) text r.
Proof.
  intros Hg. unfold parse.
  destruct (tokenizer_of G) as [tokenizer|e'|]; simpl; try done.
  destruct (parse_atom G tokenizer fuel start_symbol text ∅) as [o c'] eqn:E.
  simpl. intros ->. exists tokenizer.
  eapply parse_atom_first_success; [done| |done].
  apply cache_sound_empty.
Qed.

(** X4. The root of a parse tree.  When [parse] succeeds on a symbol of
    the grammar, the tree is a list whose first element is the symbol,
    followed by one child for each atom of one of the alternatives of the
    symbol. *)
Theorem parse_tree_root `{Host} G fuel start_symbol e text t rem :
  G !! start_symbol = Some e ->
  parse fuel start_symbol text G = Done (t, Some rem) ->
  exists alternative children,
    alternative ∈ alternatives_of e
    /\ t = TList (TStr start_symbol :: children)
    /\ length children = length alternative.
Proof.
  intros Hg Hp.
  destruct (parse_first_success _ _ _ _ _ _ Hg Hp) as (tokenizer & n & Hf).
  destruct Hf as [(pre & alt & post & children & rem' & He & _ & Ha & Hr)|[_ Hr]];
    [|done].
  injection Hr as -> ->. exists alt, children. repeat split.
  - rewrite He. apply elem_of_app. right. apply list_elem_of_here.
  - by eapply eval_sequence_length.
Qed.

Lemma parse_tree_root_witness :
  parse 2 "value" (quoted "b") ab_grammar
  = Done (TList [TStr "value"; TStr (quoted "b")], Some "")
  /\ exists alternative children,
       alternative ∈ [[quoted "a"]; [quoted "b"]]
       /\ TList [TStr "value"; TStr (quoted "b")]
          = TList (TStr "value" :: children)
       /\ length children = length alternative.
Proof.
  assert (Hp : parse 2 "value" (quoted "b") ab_grammar
               = Done (TList [TStr "value"; TStr (quoted "b")], Some ""))
    by (vm_compute; reflexivity).
  assert (Hg : ab_grammar !! "value"
               = Some (ERules [[quoted "a"]; [quoted "b"]]))
    by (vm_compute; reflexivity).
  split; [exact Hp|].
  exact (parse_tree_root ab_grammar 2 "value" _ _ _ _ Hg Hp).
Defined.

(** X5. A symbol with an empty alternative never fails: an alternative
    with no atom matches every text, so [parse] on the symbol does not
    return [Fail]. *)
Theorem empty_alternative_never_fails `{Host} G fuel start_symbol e text :
  G !! start_symbol = Some e ->
  [] ∈ alternatives_of e ->
  parse fuel start_symbol text G <> Done Fail.
Proof.
  intros Hg Hin Hp.
  destruct (parse_first_success _ _ _ _ _ _ Hg Hp) as (tokenizer & n & Hf).
  destruct Hf as [(pre & alt & post & children & rem' & _ & _ & _ & [=])|[Hall _]].
  specialize (Hall _ Hin). done.
Qed.

Lemma empty_alternative_never_fails_witness :
  grammar "x => a |   | b" "\s*" = Done empty_alternative_grammar
  /\ parse 2 "x" "zzz" empty_alternative_grammar
     = Done (TList [TStr "x"], Some "zzz")
  /\ parse 2 "x" "zzz" empty_alternative_grammar <> Done Fail.
Proof.
  split; [vm_compute; reflexivity|]. split; [vm_compute; reflexivity|].
  assert (Hg : empty_alternative_grammar !! "x"
               = Some (ERules [["a"]; []; ["b"]]))
    by (vm_compute; reflexivity).
  exact (empty_alternative_never_fails empty_alternative_grammar 2 "x" _ "zzz"
           Hg (list_elem_of_further _ _ _ (list_elem_of_here _ _))).
Defined.

Lemma seq_steps_app pa s1 text c ts1 rem1 c1 :
  seq_steps pa s1 text c ts1 rem1 c1 ->
  forall s2 ts2 rem2 c2,
    seq_steps pa s2 rem1 c1 ts2 rem2 c2 ->
    seq_steps pa (s1 ++ s2) text c (ts1 ++ ts2) rem2 c2.
Proof.
  induction 1 as [text c|atom s1 text c t text1 c1 ts rem c' Ha _ IH];
    intros s2 ts2 rem2 c2 H2; simpl; [done|].
  econstructor; [exact Ha|]. by apply IH.
Qed.

Lemma sequence_loop_after pa s1 text c ts1 rem1 c1 :
  seq_steps pa s1 text c ts1 rem1 c1 ->
  forall acc s2,
    sequence_loop pa (s1 ++ s2) acc text c
    = sequence_loop pa s2 (acc ++ ts1) rem1 c1.
Proof.
  induction 1 as [text c|atom s1 text c t text1 c1 ts rem c' Ha _ IH];
    intros acc s2; simpl.
  - by rewrite app_nil_r.
  - unfold bind. rewrite Ha, IH. by rewrite <- app_assoc.
Qed.

(** The list built so far does not change how the rest of a sequence goes:
    it is only put in front of the trees of a success. *)
Lemma sequence_loop_acc pa sequence : forall acc text c,
  sequence_loop pa sequence acc text c
  = match sequence_loop pa sequence [] text c with
    | (Done (TList ts, Some rem), c') => (Done (TList (acc ++ ts), Some rem), c')
    | other => other
    end.
Proof.
  induction sequence as [|atom sequence IH]; intros acc text c; simpl.
  - by rewrite app_nil_r.
  - unfold bind. destruct (pa atom text c) as [[[t [text'|]]|e|] c1]; try done.
    rewrite (IH (acc ++ [t])), (IH ([] ++ [t])).
    destruct (sequence_loop pa sequence [] text' c1)
      as [[[[| |ts] [rem|]]|e|] c2]; try done.
    by rewrite <- app_assoc.
Qed.

(** X6. Matching a sequence made of two parts is matching the first part
    and then the second on what the first left: when the atoms of the
    first part succeed, a success of the second part gives the trees of
    both, in order, and anything else the second part does (fail, raise,
    run out of depth) is what the whole sequence does. *)
Theorem parse_sequence_app `{Host} G tokenizer fuel s1 s2 text c ts1 rem1 c1 :
  seq_steps (parse_atom G tokenizer fuel) s1 text c ts1 rem1 c1 ->
  parse_sequence (parse_atom G tokenizer fuel) (s1 ++ s2) text c
  = match parse_sequence (parse_atom G tokenizer fuel) s2 rem1 c1 with
    | (Done (TList ts2, Some rem2), c2) =>
        (Done (TList (ts1 ++ ts2), Some rem2), c2)
    | other => other
    end.
Proof.
  intros Hs. unfold parse_sequence.
  rewrite (sequence_loop_after _ _ _ _ _ _ _ Hs). simpl.
  apply sequence_loop_acc.
Qed.

Lemma parse_sequence_app_witness :
  let pa := parse_atom bare_grammar "\s*(%s)" 1 in
  exists c1 c2,
    seq_steps pa ["a"] "a c" ∅ [TStr "a"] " c" c1
    /\ parse_sequence pa ["c"] " c" c1 = (Done (TList [TStr "c"], Some ""), c2)
    /\ parse_sequence pa (["a"] ++ ["c"]) "a c" ∅
       = (Done (TList ([TStr "a"] ++ [TStr "c"]), Some ""), c2).
Proof.
  intros pa.
  pose (c1 := snd (pa "a" "a c" ∅)).
  pose (c2 := snd (parse_sequence pa ["c"] " c" c1)).
  assert (Ha : pa "a" "a c" ∅ = (Done (TStr "a", Some " c"), c1))
    by (vm_compute; reflexivity).
  assert (Hc : parse_sequence pa ["c"] " c" c1
               = (Done (TList [TStr "c"], Some ""), c2))
    by (vm_compute; reflexivity).
  assert (Hs : seq_steps pa ["a"] "a c" ∅ [TStr "a"] " c" c1)
    by exact (steps_cons pa "a" [] "a c" ∅ (TStr "a") " c" c1 [] " c" c1
                Ha (steps_nil pa " c" c1)).
  exists c1, c2. split; [exact Hs|]. split; [exact Hc|].
  pose proof (parse_sequence_app bare_grammar "\s*(%s)" 1 ["a"] ["c"] "a c" ∅
                [TStr "a"] " c" c1 Hs) as Happ.
  fold pa in Happ. rewrite Hc in Happ. exact Happ.
Defined.

(** * Further properties of the compiler *)

(** X7. The pieces [split] returns are stripped, none has whitespace at
    either end, and whitespace around the text makes no difference. *)
Theorem split_pieces_stripped text sep maxsplit pieces :
  split text sep maxsplit = Done pieces ->
  (forall p, p ∈ pieces -> PyStr.strip p = p)
  /\ split (PyStr.strip text) sep maxsplit = Done pieces.
Proof.
  intros Hs. split.
  - intros p Hp. destruct (split_stripped _ _ _ _ Hs _ Hp) as [t ->].
    apply strip_idem.
  - unfold split in *. by rewrite strip_idem.
Qed.

Lemma split_pieces_stripped_witness :
  split "  a  |  b  " (Some " | ") (-1) = Done ["a"; "b"]
  /\ split (PyStr.strip "  a  |  b  ") (Some " | ") (-1) = Done ["a"; "b"].
Proof.
  assert (Hs : split "  a  |  b  " (Some " | ") (-1) = Done ["a"; "b"])
    by (vm_compute; reflexivity).
  split; [exact Hs|].
  exact (proj2 (split_pieces_stripped _ _ _ _ Hs)).
Defined.

Lemma split_blank_nonempty budget s : PyStr.split_blank true budget s <> [].
Proof.
  destruct s as [|c s]; simpl; [done|].
  destruct (PyStr.isspace c); [done|].
  by destruct (PyStr.split_blank true budget s).
Qed.

Lemma split_blank_length s : forall inword n,
  length (PyStr.split_blank inword (Some n) s)
  <= S n + (if inword then 1 else 0).
Proof.
  induction s as [|c s IH]; intros inword n.
  - destruct inword; simpl; lia.
  - cbn [PyStr.split_blank]. destruct inword.
    + destruct (PyStr.isspace c).
      * pose proof (IH false n) as Hf. cbn [length]. simpl in Hf. lia.
      * rewrite length_push by apply split_blank_nonempty. apply IH.
    + destruct (PyStr.isspace c); [apply (IH false n)|].
      destruct n as [|n]; cbn [PyStr.may_split]; [simpl; lia|].
      rewrite length_push by apply split_blank_nonempty.
      cbn [PyStr.spend Nat.pred]. pose proof (IH true n) as Ht.
      simpl in Ht. lia.
Qed.

(** X8. [maxsplit] bounds the pieces: with a [maxsplit] that is not
    negative, [split] returns at most [maxsplit + 1] pieces. *)
Theorem split_maxsplit_bound text sep maxsplit pieces :
  (0 <= maxsplit)%Z ->
  split text sep maxsplit = Done pieces ->
  length pieces <= Z.to_nat maxsplit + 1.
Proof.
  intros Hm.
  assert (Hb : PyStr.split_budget maxsplit = Some (Z.to_nat maxsplit)).
  { unfold PyStr.split_budget. by destruct (Z.ltb_spec maxsplit 0); [lia|]. }
  unfold split, PyStr.str_split. rewrite Hb.
  destruct sep as [[|c sep]|]; cbn [obind]; try done; intros [= <-];
    rewrite length_map, Nat.add_1_r; (etrans; [apply length_filter|]).
  - apply split_on_length.
  - etrans; [apply (split_blank_length _ false)|]. by rewrite Nat.add_0_r.
Qed.

Lemma split_maxsplit_bound_witness :
  split "a => b => c" (Some " => ") 1 = Done ["a"; "b => c"]
  /\ length ["a"; "b => c"] <= Z.to_nat 1 + 1.
Proof.
  assert (Hs : split "a => b => c" (Some " => ") 1 = Done ["a"; "b => c"])
    by (vm_compute; reflexivity).
  split; [exact Hs|].
  exact (split_maxsplit_bound _ _ 1 _ ltac:(discriminate) Hs).
Defined.

Lemma lstrip_all_space s : all_space s = true -> PyStr.lstrip s = "".
Proof.
  induction s as [|c s IH]; [done|]. simpl.
  intros [-> Hs]%andb_prop. by apply IH.
Qed.

Lemma all_space_replace s :
  all_space s = true ->
  all_space (PyStr.replace PyStr.tab PyStr.space s) = true.
Proof.
  induction s as [|c s IH]; [done|]. cbn [all_space PyStr.replace].
  intros [Hc Hs]%andb_prop. rewrite (IH Hs), andb_true_r.
  by destruct (Ascii.eqb c PyStr.tab).
Qed.

(** X9. A description with nothing but whitespace, the empty one among
    them, has no rule line: [grammar] returns the grammar that holds the
    whitespace pattern and nothing else. *)
Theorem grammar_of_blank description whitespace :
  all_space description = true ->
  grammar description whitespace = Done {[ ws_key := EWs whitespace ]}.
Proof.
  intros Hd. unfold grammar, split, PyStr.strip.
  rewrite (lstrip_all_space _ (all_space_replace _ Hd)). reflexivity.
Qed.

Lemma grammar_of_blank_witness :
  grammar (nl +:+ "   " +:+ nl) "\s*" = Done {[ ws_key := EWs "\s*" ]}.
Proof. apply grammar_of_blank. vm_compute. reflexivity. Defined.

Section Words.
Import PyStr.

Lemma rstrip_no_space s : no_space s = true -> rstrip s = s.
Proof.
  induction s as [|c s IH]; [done|]. cbn [no_space rstrip].
  intros [Hc Hs]%andb_prop. apply negb_true_iff in Hc.
  by rewrite Hc, (IH Hs).
Qed.

Lemma strip_word s : is_word s -> strip s = s.
Proof.
  intros [Hne Hs]. unfold strip. rewrite lstrip_id.
  - by apply rstrip_no_space.
  - destruct s as [|c s]; [done|]. simpl in Hs.
    apply andb_prop in Hs as [Hc _]. by apply negb_true_iff in Hc.
Qed.

Lemma split_blank_words s :
  Forall is_word (split_blank false None s)
  /\ match split_blank true None s with
     | [] => False
     | p :: ps => no_space p = true /\ Forall is_word ps
     end.
Proof.
  induction s as [|c s [IHf IHt]]; [by split; [constructor|]|].
  cbn [split_blank may_split spend].
  destruct (split_blank true None s) as [|p ps]; [done|].
  destruct IHt as [Hp Hps].
  destruct (isspace c) eqn:Hc; (split; [|split]); try done.
  constructor; [|done]. split; [done|]. cbn [no_space]. by rewrite Hc, Hp.
  all: cbn [push no_space]; by rewrite ?Hc, ?Hp.
Qed.
End Words.

(** X10. Split on whitespace, with no bound on the splits, a text gives
    words: no piece is empty and no piece holds a whitespace character. *)
Theorem split_on_whitespace_gives_words text maxsplit pieces :
  (maxsplit < 0)%Z ->
  split text None maxsplit = Done pieces ->
  Forall is_word pieces.
Proof.
  intros Hm. unfold split, PyStr.str_split, PyStr.split_budget.
  destruct (Z.ltb_spec maxsplit 0) as [_|?]; [|lia].
  cbn [obind]. intros [= <-].
  pose proof (proj1 (split_blank_words (PyStr.strip text))) as Hw.
  induction Hw as [|w ws Hw Hws IH]; [constructor|].
  rewrite filter_cons. destruct (decide (w <> "")) as [_|Hne].
  - simpl. constructor; [|exact IH]. by rewrite strip_word.
  - destruct Hw as [Hw _]. done.
Qed.

Lemma split_on_whitespace_gives_words_witness :
  split "  int   frac exp " None (-1) = Done ["int"; "frac"; "exp"]
  /\ Forall is_word ["int"; "frac"; "exp"].
Proof.
  assert (Hs : split "  int   frac exp " None (-1) = Done ["int"; "frac"; "exp"])
    by (vm_compute; reflexivity).
  split; [exact Hs|].
  exact (split_on_whitespace_gives_words _ (-1) _ eq_refl Hs).
Defined.

Lemma omap_elem {A B} (f : A -> outcome B) l : forall ys y,
  omap f l = Done ys -> y ∈ ys -> exists x, x ∈ l /\ f x = Done y.
Proof.
  induction l as [|x l IH]; intros ys y; simpl.
  - intros [= <-] Hy. by apply elem_of_nil in Hy.
  - destruct (f x) as [y0|e|] eqn:Ex; cbn [obind]; try done.
    destruct (omap f l) as [ys0|e|]; cbn [obind]; try done.
    intros [= <-] [->|Hy]%elem_of_cons.
    + exists x. split; [apply list_elem_of_here|done].
    + destruct (IH _ _ eq_refl Hy) as (x' & Hx' & Hf).
      exists x'. split; [by apply list_elem_of_further|done].
Qed.

Lemma last_rule_elem rules lhs alternatives :
  last_rule rules lhs alternatives -> (lhs, alternatives) ∈ rules.
Proof.
  intros (before & after & -> & _). apply elem_of_app. right.
  apply list_elem_of_here.
Qed.

(** The rules of a grammar come from rule lines. *)
Lemma grammar_rule_line description whitespace G lhs alternatives :
  grammar description whitespace = Done G ->
  G !! lhs = Some (ERules alternatives) ->
  exists line, rule_of line = Done (lhs, alternatives).
Proof.
  intros Hg Hl.
  destruct (grammar_lookup _ _ _ Hg) as (lines & rules & _ & Hr & Hlast & _).
  apply Hlast, last_rule_elem in Hl.
  destruct (omap_elem _ _ _ _ Hr Hl) as (line & _ & Hline). eauto.
Qed.

(** X11. The atoms of a compiled grammar are words: in every alternative
    of every rule, no atom is empty and no atom holds a whitespace
    character. *)
Theorem grammar_atoms_are_words description whitespace G lhs alternatives :
  grammar description whitespace = Done G ->
  G !! lhs = Some (ERules alternatives) ->
  forall alternative atom,
    alternative ∈ alternatives -> atom ∈ alternative -> is_word atom.
Proof.
  intros Hg Hl alternative atom Halt Hatom.
  destruct (grammar_rule_line _ _ _ _ _ Hg Hl) as [line Hline].
  unfold rule_of in Hline.
  destruct (split line (Some " => ") 1) as [[|l [|rhs [|x ps]]]|e|];
    cbn [obind] in Hline; try done.
  destruct (split rhs (Some " | ") (-1)) as [alts|e|]; cbn [obind] in Hline;
    try done.
  destruct (omap _ alts) as [rules|e|] eqn:Eo; cbn [obind] in Hline; try done.
  injection Hline as <- <-.
  destruct (omap_elem _ _ _ _ Eo Halt) as (a & _ & Ha).
  pose proof (split_on_whitespace_gives_words _ (-1) _ eq_refl Ha) as Hw.
  by apply (proj1 (Forall_forall _ _) Hw).
Qed.

Section RuleShape.
Import PyStr.

Lemma rstrip_app_suffix a : forall b,
  rstrip (a +:+ b) = a +:+ b -> rstrip b = b.
Proof.
  induction a as [|x a IH]; intros b; [done|].
  rewrite string_app_cons. cbn [rstrip].
  destruct (isspace x && is_empty (rstrip (a +:+ b))); [done|].
  intros [= E]. by apply IH.
Qed.

Lemma lstrip_suffix s : exists w, s = w +:+ lstrip s.
Proof.
  induction s as [|c s [w IH]]; [by exists ""|]. cbn [lstrip].
  destruct (isspace c); [|by exists ""].
  exists (String c w). by rewrite string_app_cons, <- IH.
Qed.

Lemma lstrip_empty_rstrip s : lstrip s = "" -> rstrip s = "".
Proof.
  induction s as [|c s IH]; [done|]. cbn [lstrip rstrip].
  destruct (isspace c); [|done]. intros E. by rewrite (IH E).
Qed.

Lemma strip_head_no_space s : head_no_space s -> head_no_space (strip s).
Proof.
  intros Hs. unfold strip. rewrite lstrip_id by (by destruct s).
  pose proof (rstrip_head s) as Hr. destruct s as [|c s]; [done|].
  specialize (Hr Hs). destruct (rstrip (String c s)); [done|]. by subst.
Qed.

(** A text that does not end with whitespace, stripped, is not empty. *)
Lemma strip_rstrip_fixed p :
  p <> "" -> rstrip p = p -> head_no_space (strip p).
Proof.
  intros Hne Hp. unfold strip.
  destruct (lstrip_suffix p) as [w Hw].
  assert (Hl : rstrip (lstrip p) = lstrip p).
  { apply (rstrip_app_suffix w). by rewrite <- Hw. }
  rewrite Hl. pose proof (lstrip_head p) as Hh.
  destruct (lstrip p) eqn:E; [|done].
  apply lstrip_empty_rstrip in E. congruence.
Qed.

Lemma startswith_space a sep s :
  isspace a = true -> head_no_space s -> startswith (String a sep) s = false.
Proof.
  intros Ha Hs. destruct s as [|c s]; [done|]. cbn [startswith].
  destruct (Ascii.eqb a c) eqn:E; [|done].
  apply Ascii.eqb_eq in E as ->. simpl in Hs. congruence.
Qed.

(** The first piece of a text that begins with a character other than
    whitespace, split on a separator that begins with whitespace. *)
Lemma split_on_head a sep budget s :
  isspace a = true -> head_no_space s ->
  exists p ps,
    split_on (String a sep) 0 budget s = p :: ps /\ head_no_space p.
Proof.
  intros Ha Hs. pose proof (startswith_space a sep s Ha Hs) as Hp.
  destruct s as [|c s]; [done|]. cbn [split_on]. rewrite Hp, andb_false_r.
  destruct (split_on (String a sep) 0 budget s) as [|q qs]; cbn [push]; eauto.
Qed.

Lemma split_blank_head s :
  head_no_space s ->
  exists p ps, split_blank false None s = p :: ps /\ head_no_space p.
Proof.
  destruct s as [|c s]; [done|]. cbn [head_no_space split_blank may_split].
  intros Hc. rewrite Hc.
  unfold push. cbn [spend].
  destruct (split_blank true None s) as [|q qs];
    (eexists _, _; split; [reflexivity|exact Hc]).
Qed.
End RuleShape.

Lemma head_no_space_ne s : head_no_space s -> s <> "".
Proof. by destruct s. Qed.

(** Split on a separator that begins with whitespace, a text with a
    character other than whitespace gives a first piece. *)
Lemma split_sep_head text a sep maxsplit :
  PyStr.isspace a = true -> head_no_space (PyStr.strip text) ->
  exists p ps,
    split text (Some (String a sep)) maxsplit = Done (p :: ps)
    /\ head_no_space p.
Proof.
  intros Ha Ht. unfold split. cbn [PyStr.str_split obind].
  destruct (split_on_head a sep (PyStr.split_budget maxsplit) _ Ha Ht)
    as (p & ps & -> & Hp).
  rewrite filter_cons. destruct (decide (p <> "")) as [_|Hn].
  - simpl. eexists _, _. split; [done|]. by apply strip_head_no_space.
  - destruct Hn. by apply head_no_space_ne.
Qed.

Lemma split_none_head text :
  head_no_space (PyStr.strip text) ->
  exists p ps, split text None (-1) = Done (p :: ps).
Proof.
  intros Ht. unfold split. cbn [PyStr.str_split obind].
  change (PyStr.split_budget (-1)) with (@None nat).
  destruct (split_blank_head _ Ht) as (p & ps & -> & Hp).
  rewrite filter_cons. destruct (decide (p <> "")) as [_|Hn].
  - simpl. by eexists _, _.
  - destruct Hn. by apply head_no_space_ne.
Qed.

(** The two pieces of a rule line: neither is empty, and both begin with a
    character other than whitespace. *)
Lemma split_arrow_pieces line lhs rhs :
  split line (Some " => ") 1 = Done [lhs; rhs] ->
  head_no_space lhs /\ head_no_space rhs.
Proof.
  unfold split. cbn [PyStr.str_split obind].
  change (PyStr.split_budget 1) with (Some 1).
  destruct (PyStr.contains " => " (PyStr.strip line)) eqn:Ec.
  - destruct (split_on_first " => " (PyStr.strip line))
      as (pre & post & -> & Ht & _); [done..|].
    rewrite !filter_cons, filter_nil.
    destruct (decide (pre <> "")) as [Hpre|]; destruct (decide (post <> ""))
      as [Hpost|]; simpl; try done.
    intros [= <- <-]. split.
    + apply strip_head_no_space. pose proof (strip_head line) as Hh.
      rewrite Ht in Hh. destruct pre as [|c pre]; [done|]. exact Hh.
    + apply strip_rstrip_fixed; [done|].
      apply (rstrip_app_suffix " => "), (rstrip_app_suffix pre).
      rewrite <- Ht. apply rstrip_idem.
  - rewrite split_on_no_sep by done. rewrite filter_cons, filter_nil.
    by destruct (decide (PyStr.strip line <> "")).
Qed.

Lemma strip_fixed_head s : PyStr.strip s = s -> s <> "" -> head_no_space s.
Proof.
  intros Hs Hne. pose proof (strip_head s) as Hh. rewrite Hs in Hh.
  by destruct s.
Qed.

(** The rule of a line: the symbol begins with a character other than
    whitespace, and the first alternative has an atom. *)
Lemma rule_of_shape line lhs alternatives :
  rule_of line = Done (lhs, alternatives) ->
  head_no_space lhs
  /\ exists atom first rest, alternatives = (atom :: first) :: rest.
Proof.
  unfold rule_of.
  destruct (split line (Some " => ") 1) as [[|l [|rhs [|x ps]]]|e|] eqn:Es;
    cbn [obind]; try done.
  destruct (split_arrow_pieces _ _ _ Es) as [Hl Hr].
  destruct (split_sep_head rhs " " "| " (-1)) as (p & alts & -> & Hp);
    [done|by apply strip_head_no_space|].
  cbn [obind omap].
  destruct (split_none_head p) as (atom & first & ->);
    [by apply strip_head_no_space|].
  cbn [obind]. destruct (omap _ alts) as [rules|e|]; cbn [obind]; try done.
  intros [= <- <-]. split; [done|]. eauto.
Qed.

(** X12. The shape of a compiled rule.  The symbol of every rule of a
    compiled grammar is stripped and is not empty, and the rule has a first
    alternative with at least one atom: an empty alternative is never the
    first one. *)
Theorem grammar_rule_shape description whitespace G lhs alternatives :
  grammar description whitespace = Done G ->
  G !! lhs = Some (ERules alternatives) ->
  lhs <> "" /\ PyStr.strip lhs = lhs
  /\ exists atom first rest, alternatives = (atom :: first) :: rest.
Proof.
  intros Hg Hl.
  destruct (grammar_rule_line _ _ _ _ _ Hg Hl) as [line Hline].
  destruct (rule_of_shape _ _ _ Hline) as [Hh Ha].
  split; [by apply head_no_space_ne|]. split; [|done].
  unfold rule_of in Hline.
  destruct (split line (Some " => ") 1) as [[|l [|rhs [|x ps]]]|e|] eqn:Es;
    cbn [obind] in Hline; try done.
  destruct (split rhs (Some " | ") (-1)) as [alts|e|]; cbn [obind] in Hline;
    try done.
  destruct (omap _ alts) as [rules|e|]; cbn [obind] in Hline; try done.
  injection Hline as <- <-.
  destruct (split_stripped _ _ _ _ Es l) as [t ->]; [apply list_elem_of_here|].
  apply strip_idem.
Qed.

Lemma grammar_rule_shape_witness :
  grammar ab_description "\s*" = Done ab_grammar
  /\ "value" <> "" /\ PyStr.strip "value" = "value"
  /\ exists atom first rest,
       [[quoted "a"]; [quoted "b"]] = (atom :: first) :: rest.
Proof.
  assert (Hg : grammar ab_description "\s*" = Done ab_grammar)
    by (vm_compute; reflexivity).
  assert (Hl : ab_grammar !! "value"
               = Some (ERules [[quoted "a"]; [quoted "b"]]))
    by (vm_compute; reflexivity).
  split; [exact Hg|].
  exact (grammar_rule_shape ab_description "\s*" ab_grammar "value" _ Hg Hl).
Defined.

Lemma grammar_atoms_are_words_witness :
  grammar "E => E op T | T" "\s*" = Done left_recursive_grammar
  /\ is_word "op".
Proof.
  assert (Hg : grammar "E => E op T | T" "\s*" = Done left_recursive_grammar)
    by (vm_compute; reflexivity).
  assert (Hl : left_recursive_grammar !! "E"
               = Some (ERules [["E"; "op"; "T"]; ["T"]]))
    by (vm_compute; reflexivity).
  split; [exact Hg|].
  exact (grammar_atoms_are_words _ _ _ "E" _ Hg Hl ["E"; "op"; "T"] "op"
           (list_elem_of_here _ _)
           (list_elem_of_further _ _ _ (list_elem_of_here _ _))).
Defined.

(** X13. A compiled grammar goes through [parse].  Its tokenizer is the
    whitespace pattern followed by [(%s)]: neither the [KeyError] nor the
    [TypeError] of [grammar[' '] + '(%s)'] occurs, [parse] is [parse_atom]
    on the start symbol from an empty cache, and an exception leaves it only
    from the library calls on a terminal. *)
Theorem parse_compiled_grammar `{Host} description whitespace G fuel
    start_symbol text :
  grammar description whitespace = Done G ->
  tokenizer_of G = Done (whitespace +:+ "(%s)")
  /\ parse fuel start_symbol text G
     = fst (parse_atom G (whitespace +:+ "(%s)") fuel start_symbol text ∅)
  /\ forall e,
       parse fuel start_symbol text G = Raise e ->
       from_terminal G (whitespace +:+ "(%s)") e.
Proof.
  intros Hg.
  assert (Ht : tokenizer_of G = Done (whitespace +:+ "(%s)")).
  { unfold tokenizer_of. by rewrite (grammar_ws_key _ _ _ Hg). }
  assert (Hp : parse fuel start_symbol text G
     = fst (parse_atom G (whitespace +:+ "(%s)") fuel start_symbol text ∅)).
  { unfold parse. by rewrite Ht. }
  split; [done|]. split; [done|].
  intros e. rewrite Hp.
  destruct (parse_atom _ _ fuel start_symbol text ∅) as [o c'] eqn:E.
  simpl. intros ->. by eapply parse_atom_raises.
Qed.

Lemma parse_compiled_grammar_witness :
  grammar ab_description "\s*" = Done ab_grammar
  /\ tokenizer_of ab_grammar = Done "\s*(%s)"
  /\ parse 2 "value" (quoted "a") ab_grammar
     = fst (parse_atom ab_grammar "\s*(%s)" 2 "value" (quoted "a") ∅).
Proof.
  assert (Hg : grammar ab_description "\s*" = Done ab_grammar)
    by (vm_compute; reflexivity).
  split; [exact Hg|].
  pose proof (parse_compiled_grammar ab_description "\s*" ab_grammar 2
                "value" (quoted "a") Hg) as (Ht & Hp & _).
  split; [exact Ht|exact Hp].
Defined.

Section Derivation.
Context `{Host}.
Variable G : gmap string entry.
Variable tokenizer : string.

Lemma match_terminal_leaf atom text t rem :
  G !! atom = None ->
  match_terminal tokenizer atom text = Done (t, rem) -> derives G atom t.
Proof.
  intros Hg. unfold match_terminal.
  destruct (format tokenizer atom) as [p|e|]; cbn [obind]; try done.
  destruct (re_match p text) as [[m|]|e|]; cbn [obind]; try done.
  - destruct (group m 1) as [[s|]|e|]; cbn [obind]; try done;
      intros [= <- <-]; by constructor.
  - intros [= <- <-]. by constructor.
Qed.

Lemma seq_steps_derives n :
  (forall atom text t rem,
      eval G tokenizer n atom text = Done (t, Some rem) -> derives G atom t) ->
  forall sequence text c ts rem c',
    seq_steps (parse_atom_nomemo G tokenizer n) sequence text c ts rem c' ->
    Forall2 (derives G) sequence ts.
Proof.
  intros IH sequence text c ts rem c'.
  induction 1 as [|atom sequence text c t text1 c1 ts rem c' Ha _ IHs];
    constructor; [|done].
  rewrite parse_atom_nomemo_eval in Ha. injection Ha as Ha _.
  by eapply IH.
Qed.

(** What the undecorated [parse_atom] returns on success is a parse tree of
    the atom. *)
Lemma eval_derives n : forall atom text t rem,
  eval G tokenizer n atom text = Done (t, Some rem) -> derives G atom t.
Proof.
  induction n as [|n IH]; intros atom text t rem; [done|].
  rewrite eval_succ. destruct (G !! atom) as [e|] eqn:Eg.
  - intros Hl. apply alternatives_loop_nomemo_first in Hl.
    destruct Hl as [(pre & alt & post & children & rem' & He & _ & Ha & Hr)
                   |[_ [=]]].
    injection Hr as -> ->.
    apply (derives_node G atom e alt children Eg).
    + rewrite He. apply elem_of_app. right. apply list_elem_of_here.
    + unfold eval_sequence, parse_sequence in Ha.
      destruct (sequence_loop _ alt [] text ∅) as [o c] eqn:E.
      simpl in Ha. subst o.
      destruct (sequence_loop_inv _ _ _ _ _ _ _ _ E) as (ts & [= ->] & Hs).
      by eapply seq_steps_derives.
  - by apply match_terminal_leaf.
Qed.
End Derivation.

(** X14. What [parse] returns on success is a parse tree of the start
    symbol, all the way down: a leaf for a terminal, and for a symbol of the
    grammar the list of the symbol followed by one parse tree for each atom
    of one of its alternatives, whether the results came from the cache of
    [memo] or were computed. *)
Theorem parse_tree_derives `{Host} G fuel start_symbol text t rem :
  parse fuel start_symbol text G = Done (t, Some rem) ->
  derives G start_symbol t.
Proof.
  unfold parse.
  destruct (tokenizer_of G) as [tokenizer|e|]; cbn [obind]; try done.
  destruct (parse_atom G tokenizer fuel start_symbol text ∅) as [o c'] eqn:E.
  simpl. intros ->.
  destruct (parse_atom_sound G tokenizer fuel _ _ _ _ _
              (cache_sound_empty G tokenizer) E) as [_ Hr].
  destruct Hr as [_ [n Hn]]; [done|]. by eapply eval_derives.
Qed.

Lemma parse_tree_derives_witness :
  parse 2 "value" (quoted "b") ab_grammar
  = Done (TList [TStr "value"; TStr (quoted "b")], Some "")
  /\ derives ab_grammar "value" (TList [TStr "value"; TStr (quoted "b")]).
Proof.
  assert (Hp : parse 2 "value" (quoted "b") ab_grammar
               = Done (TList [TStr "value"; TStr (quoted "b")], Some ""))
    by (vm_compute; reflexivity).
  split; [exact Hp|].
  exact (parse_tree_derives ab_grammar 2 "value" _ _ _ Hp).
Defined.

Lemma replace_tab_idem s :
  PyStr.replace PyStr.tab PyStr.space (PyStr.replace PyStr.tab PyStr.space s)
  = PyStr.replace PyStr.tab PyStr.space s.
Proof.
  induction s as [|c s IH]; [done|]. cbn [PyStr.replace]. rewrite IH.
  f_equal. destruct (Ascii.eqb c PyStr.tab) eqn:E; [done|]. by rewrite E.
Qed.

(** X15. A tab in a description counts as a space: [grammar] gives the same
    outcome, grammar or exception, on a description and on the description
    with every tab replaced by a space. *)
Theorem grammar_tabs_are_spaces description whitespace :
  grammar (PyStr.replace PyStr.tab PyStr.space description) whitespace
  = grammar description whitespace.
Proof. unfold grammar. by rewrite replace_tab_idem. Qed.
